(** * luanacha: the Lua binding of the Monocypher primitives

    A shallow embedding of [src/luanacha.c]: the authenticated-envelope
    functions [ln_ae_lock] and [ln_ae_unlock] and the X25519 key-exchange
    functions [ln_x25519_keypair], [ln_x25519_public_key] and [ln_lock_key].

    The C code is modelled on the LP64 data model of the usual 64-bit
    targets with GCC or Clang: [size_t] and [lua_Integer] are 64 bits wide,
    [int] is 32 bits wide and an out-of-range conversion to [int] keeps the
    value modulo [2^32].  Buffers are byte lists; every access through a
    pointer is bounds-checked by the model and an access outside its object
    is the outcome [Undefined].  Allocation is assumed to succeed.  The
    functions take their arguments as [luaL_checklstring] and the like
    deliver them: byte strings, and [option]s for the optional prefix and
    offset.

    The Monocypher routines and [randombytes] are not part of the file: they
    are the fields of the record [Externals], and what the theorems need
    from them is stated as explicit laws. *)

From Stdlib Require Import ZArith List Lia Bool String.
From coqutil Require Import Byte Word.LittleEndianList Z.bitblast.
Import ListNotations.
Local Open Scope string_scope.
Local Open Scope list_scope.
Local Open Scope Z_scope.

(* ================================================================= *)
(** ** Machine integers *)

Module C.

Definition SIZE_BITS : Z := 64.
Definition INT_BITS : Z := 32.
Definition SIZE_MAX : Z := 2 ^ SIZE_BITS - 1.
Definition INT_MAX : Z := 2 ^ (INT_BITS - 1) - 1.
Definition INT_MIN : Z := - 2 ^ (INT_BITS - 1).

(** Arithmetic on [size_t] is modulo [2^64]. *)
Definition to_size_t (z : Z) : Z := z mod 2 ^ SIZE_BITS.

(** Conversion of a [lua_Integer] to [int]: the low 32 bits, read as a
    two's complement number. *)
Definition to_int (z : Z) : Z :=
  (z + 2 ^ (INT_BITS - 1)) mod 2 ^ INT_BITS - 2 ^ (INT_BITS - 1).

End C.

(* ================================================================= *)
(** ** Lua values and the outcome of a C function called from Lua *)

Definition bytes : Type := list byte.

Definition strlen (s : bytes) : Z := Z.of_nat (List.length s).

Inductive lua_value : Type :=
| LNil
| LString (s : bytes).

(** [Return vs]: the function pushed [vs] (first pushed first) and returned
    their number.  [Error msg]: [luaL_error] was called ([LERR]).
    [Undefined]: the function accessed memory outside an object. *)
Inductive outcome : Type :=
| Return (vs : list lua_value)
| Error (msg : string)
| Undefined.

Definition lua_literal (s : string) : lua_value :=
  LString (list_byte_of_string s).

(** The spec's [InvalidInput]: the call ends in a Lua error. *)
Definition InvalidInput (o : outcome) : Prop := exists msg, o = Error msg.

(* ================================================================= *)
(** ** Memory objects *)

(** [load b off len]: the [len] bytes read through the pointer [b + off]. *)
Definition load (b : bytes) (off len : Z) : option bytes :=
  if (0 <=? off) && (0 <=? len) && (off + len <=? strlen b)
  then Some (firstn (Z.to_nat len) (skipn (Z.to_nat off) b))
  else None.

(** [store b off src]: [b] after [src] was written through [b + off]. *)
Definition store (b : bytes) (off : Z) (src : bytes) : option bytes :=
  if (0 <=? off) && (off + strlen src <=? strlen b)
  then Some (firstn (Z.to_nat off) b ++ src
             ++ skipn (Z.to_nat (off + strlen src)) b)
  else None.

Notation "'access' x <- e ; k" :=
  (match e with Some x => k | None => Undefined end)
  (at level 10, x name, e at level 100, k at level 200,
   format "'[v' 'access'  x  <-  e ; '/' k ']'").

(* ================================================================= *)
(** ** The external routines *)

(** [uninit] gives the indeterminate content of fresh memory.
    [randombytes g n] fills a buffer with [n] bytes and steps the generator.
    [crypto_ae_lock k n m] is the box of [16 + |m|] bytes written through
    its first argument; [crypto_ae_unlock k n box] is the returned status
    and the bytes written to the plaintext buffer, [box] being the
    [16 + text_size] bytes read through its fourth argument.
    [crypto_x25519_public_key sk] is the public key written to [pk];
    [crypto_lock_key sk pk] is the returned status and the shared key. *)
Record Externals : Type := {
  rng : Type;
  uninit : nat -> byte;
  randombytes : rng -> Z -> bytes * rng;
  crypto_ae_lock : bytes -> bytes -> bytes -> bytes;
  crypto_ae_unlock : bytes -> bytes -> bytes -> Z * bytes;
  crypto_x25519_public_key : bytes -> bytes;
  crypto_lock_key : bytes -> bytes -> Z * bytes
}.

(** The contracts of the routines, as far as the binding relies on them. *)
Definition randombytes_fills (E : Externals) : Prop :=
  forall g n, 0 <= n -> strlen (fst (randombytes E g n)) = n.

Definition ae_lock_writes (E : Externals) : Prop :=
  forall k n m, strlen (crypto_ae_lock E k n m) = 16 + strlen m.

Definition ae_unlock_writes (E : Externals) : Prop :=
  forall k n box,
    16 <= strlen box ->
    strlen (snd (crypto_ae_unlock E k n box)) <= strlen box - 16 /\
    (fst (crypto_ae_unlock E k n box) = 0 ->
     strlen (snd (crypto_ae_unlock E k n box)) = strlen box - 16).

Definition ae_roundtrip (E : Externals) : Prop :=
  forall k n m,
    strlen k = 32 -> strlen n = 24 ->
    crypto_ae_unlock E k n (crypto_ae_lock E k n m) = (0, m).

Definition x25519_public_key_writes (E : Externals) : Prop :=
  forall sk, strlen (crypto_x25519_public_key E sk) = 32.

Definition lock_key_writes (E : Externals) : Prop :=
  forall sk pk, strlen (snd (crypto_lock_key E sk pk)) = 32.

(* ================================================================= *)
(** ** The binding *)

Section Binding.

Context (E : Externals).

(** [malloc n], and an automatic array of [n] bytes. *)
Definition malloc (n : Z) : bytes := map (uninit E) (seq 0 (Z.to_nat n)).

Definition luaL_optlstring (arg : option bytes) (d : bytes) : bytes :=
  match arg with Some s => s | None => d end.

Definition luaL_optinteger (arg : option Z) (d : Z) : Z :=
  match arg with Some z => z | None => d end.

(** [ae_lock(k, n, m [, pfx])] *)
Definition ln_ae_lock (k n m : bytes) (pfx_arg : option bytes) : outcome :=
  let kln := strlen k in
  let nln := strlen n in
  let mln := strlen m in
  let pfx := luaL_optlstring pfx_arg [] in
  let pfxln := strlen pfx in
  if negb (nln =? 24) then Error "bad nonce size"
  else if negb (kln =? 32) then Error "bad key size"
  else if negb (pfxln mod 8 =? 0) then Error "bad prefix size"
  else
    let bufln := C.to_size_t (mln + 16 + pfxln) in
    let buf := malloc bufln in
    access buf <- store buf pfxln (crypto_ae_lock E k n m);
    access buf <- (if 0 <? pfxln then store buf 0 pfx else Some buf);
    access s <- load buf 0 bufln;
    Return [LString s].

(** [ae_unlock(k, n, c [, i])] *)
Definition ln_ae_unlock (k n c : bytes) (i_arg : option Z) : outcome :=
  let kln := strlen k in
  let nln := strlen n in
  let cln := strlen c in
  let i := C.to_int (luaL_optinteger i_arg 0) in
  if negb (nln =? 24) then Error "bad nonce size"
  else if negb (kln =? 32) then Error "bad key size"
  else
    let buf := malloc cln in
    let mln := C.to_size_t (cln - i - 16) in
    access box <- load c i (16 + mln);
    let (r, out) := crypto_ae_unlock E k n box in
    access buf <- store buf 0 out;
    if negb (r =? 0) then Return [LNil; lua_literal "unlock error"]
    else
      access s <- load buf 0 mln;
      Return [LString s].

(** [x25519_keypair()] *)
Definition ln_x25519_keypair (g : rng E) : outcome * rng E :=
  let pk := malloc 32 in
  let sk := malloc 32 in
  let (rnd, g') := randombytes E g 32 in
  (access sk <- store sk 0 rnd;
   access pk <- store pk 0 (crypto_x25519_public_key E sk);
   access s1 <- load pk 0 32;
   access s2 <- load sk 0 32;
   Return [LString s1; LString s2],
   g').

(** [x25519_public_key(sk)] *)
Definition ln_x25519_public_key (sk : bytes) : outcome :=
  let skln := strlen sk in
  let pk := malloc 32 in
  if negb (skln =? 32) then Error "bad sk size"
  else
    access pk <- store pk 0 (crypto_x25519_public_key E sk);
    access s <- load pk 0 32;
    Return [LString s].

(** [lock_key(sk, pk)]: the status [r] is assigned and never read. *)
Definition ln_lock_key (sk pk : bytes) : outcome :=
  let skln := strlen sk in
  let pkln := strlen pk in
  let k := malloc 32 in
  if negb (pkln =? 32) then Error "bad pk size"
  else if negb (skln =? 32) then Error "bad sk size"
  else
    let (r, out) := crypto_lock_key E sk pk in
    access k <- store k 0 out;
    access s <- load k 0 32;
    Return [LString s].

(** The call of [crypto_ae_unlock] made by [ln_ae_unlock], when the
    region it reads lies inside the envelope: its status and output. *)
Definition tag_verification (k n c : bytes) (i_arg : option Z)
  : option (Z * bytes) :=
  let i := C.to_int (luaL_optinteger i_arg 0) in
  let mln := C.to_size_t (strlen c - i - 16) in
  match load c i (16 + mln) with
  | Some box => Some (crypto_ae_unlock E k n box)
  | None => None
  end.

Definition tag_verification_fails k n c i_arg : Prop :=
  exists r out, tag_verification k n c i_arg = Some (r, out) /\ r <> 0.

Definition tag_verification_succeeds k n c i_arg : Prop :=
  exists out, tag_verification k n c i_arg = Some (0, out).

End Binding.

(* ================================================================= *)
(** ** The rest of the binding *)

(** Conversion of a [lua_Integer] to [unsigned long long], the type of the
    count that [randombytes] takes. *)
Definition to_unsigned_long_long (z : Z) : Z := z mod 2 ^ 64.

Section RandomBytes.

Context (E : Externals).

(** [randombytes(n)].  The size of the buffer is whatever the caller
    passes, so the answer of [malloc] is explicit here: with [allocated]
    false the buffer is the null pointer, an object of no bytes. *)
Definition ln_randombytes (allocated : bool) (li : Z) (g : rng E)
  : outcome * rng E :=
  let bufln := C.to_size_t li in
  let buf := if allocated then malloc E bufln else [] in
  let (rnd, g') := randombytes E g (to_unsigned_long_long li) in
  (access buf <- store buf 0 rnd;
   access s <- load buf 0 bufln;
   Return [LString s],
   g').

End RandomBytes.

(** What the two sides of a key exchange need from the X25519 routines:
    the secret key of one with the public key of the other gives the same
    shared key either way. *)
Definition lock_key_symmetric (E : Externals) : Prop :=
  forall skA skB,
    strlen skA = 32 -> strlen skB = 32 ->
    snd (crypto_lock_key E skA (crypto_x25519_public_key E skB))
    = snd (crypto_lock_key E skB (crypto_x25519_public_key E skA)).

(** *** The library table *)

Inductive c_function : Type :=
| Ln_randombytes
| Ln_ae_lock
| Ln_ae_unlock
| Ln_x25519_keypair
| Ln_x25519_public_key
| Ln_lock_key.

(** A field of the table: a C function or a string. *)
Inductive field : Type :=
| FFunction (f : c_function)
| FString (s : bytes).

Definition lua_table : Type := list (string * field).

Fixpoint lua_getfield (t : lua_table) (name : string) : option field :=
  match t with
  | [] => None
  | (key, v) :: t' => if String.eqb key name then Some v
                      else lua_getfield t' name
  end.

(** [lua_settable]: the field replaces one of the same name. *)
Definition lua_settable (t : lua_table) (name : string) (v : field)
  : lua_table :=
  (name, v) :: filter (fun e => negb (String.eqb (fst e) name)) t.

(** An entry of a [luaL_Reg] array; the array ends at a null name. *)
Definition luaL_Reg : Type := (option string * option c_function)%type.

Fixpoint luaL_setfuncs (l : list luaL_Reg) (t : lua_table) : lua_table :=
  match l with
  | (Some name, Some f) :: l' =>
      luaL_setfuncs l' (lua_settable t name (FFunction f))
  | _ => t
  end.

Definition luanachalib : list luaL_Reg :=
  [ (Some "randombytes", Some Ln_randombytes);
    (Some "ae_lock", Some Ln_ae_lock);
    (Some "ae_unlock", Some Ln_ae_unlock);
    (Some "x25519_keypair", Some Ln_x25519_keypair);
    (Some "x25519_public_key", Some Ln_x25519_public_key);
    (Some "lock_key", Some Ln_lock_key);
    (None, None) ].

Definition LUANACHA_VERSION : string := "luanacha-0.1".

(** [luaopen_luanacha]: the table that [require] returns. *)
Definition luaopen_luanacha : lua_table :=
  let t := luaL_setfuncs luanachalib [] in
  lua_settable t "VERSION" (FString (list_byte_of_string LUANACHA_VERSION)).

(** The functions that the head of the file lists as the API. *)
Definition documented_api : list string :=
  [ "randombytes"; "ae_lock"; "ae_unlock";
    "x25519_keypair"; "x25519_public_key"; "lock_key";
    "blake2b_init"; "blake2b_update"; "blake2b_final"; "blake2b";
    "ed25519_keypair"; "ed25519_public_key"; "ed25519_sign";
    "ed25519_check" ].

(* ================================================================= *)
(** ** The X25519 routines, from the spec *)

(** Modelled from the spec: [crypto_x25519_public_key] and [crypto_lock_key]
    are Monocypher routines whose code is not under [src/].  The spec gives
    the first as the scalar multiplication of the secret key against the
    curve base point, and the second as the Diffie-Hellman shared point of
    the own secret key and the peer public key followed by a key-derivation
    step.  [DHGroup] is the curve: its points with their addition and base
    point, the scalar read from a 32-byte secret key (clamped, hence never
    zero), the 32-byte encoding of points and the key derivation. *)
Record DHGroup : Type := {
  point : Type;
  valid : point -> Prop;
  add : point -> point -> point;
  base : point;
  scalar : bytes -> positive;
  encode : point -> bytes;
  decode : bytes -> point;
  degenerate : bytes -> bool;
  kdf : bytes -> bytes
}.

(** Modelled from the spec: the scalar multiplication [n . P] of the curve,
    which the missing Monocypher code computes; here by doubling and
    adding. *)
Definition scalarmult (G : DHGroup) (n : positive) (P : point G) : point G :=
  Pos.iter_op (add G) n P.

(** What the model asks of the curve: addition is associative and stays on
    the curve, and a multiple of a decoded point has the encoding of the
    multiple of the point itself (the encoding may forget the sign of a
    point, as the x-coordinate does). *)
Record DHLaws (G : DHGroup) : Prop := {
  add_assoc : forall a b c : point G,
      add G a (add G b c) = add G (add G a b) c;
  add_valid : forall a b, valid G a -> valid G b -> valid G (add G a b);
  base_valid : valid G (base G);
  encode_scalarmult : forall n a,
      valid G a ->
      encode G (scalarmult G n (decode G (encode G a)))
      = encode G (scalarmult G n a);
  encode_length : forall a, strlen (encode G a) = 32;
  kdf_length : forall s, strlen s = 32 -> strlen (kdf G s) = 32
}.

(** Modelled from the spec: [crypto_x25519_public_key], missing from
    [src/]; "scalar multiplication of secretKey against the curve base
    point". *)
Definition spec_x25519_public_key (G : DHGroup) (sk : bytes) : bytes :=
  encode G (scalarmult G (scalar G sk) (base G)).

(** Modelled from the spec: [crypto_lock_key], missing from [src/]; the
    "Diffie-Hellman shared point" of the own secret key and the peer public
    key, then "a key-derivation step"; the status tells a degenerate shared
    point. *)
Definition spec_lock_key (G : DHGroup) (sk pk : bytes) : Z * bytes :=
  let shared := encode G (scalarmult G (scalar G sk) (decode G pk)) in
  (if degenerate G shared then -1 else 0, kdf G shared).

(** [E] implements the X25519 routines as the spec describes them. *)
Definition x25519_as_specified (G : DHGroup) (E : Externals) : Prop :=
  (forall sk, crypto_x25519_public_key E sk = spec_x25519_public_key G sk) /\
  (forall sk pk, crypto_lock_key E sk pk = spec_lock_key G sk pk).

(* ================================================================= *)
(** ** A small instance of the external routines

    Used to run the binding on concrete inputs: a one-byte stream cipher
    with a 16-byte checksum tag, Diffie-Hellman in the multiplicative group
    modulo [2^255 - 19], and a counter as random source. *)

Module Toy.

Definition xor_all (l : bytes) : byte := fold_right byte.xor Byte.x00 l.

Definition stream (k n : bytes) (m : bytes) : bytes :=
  map (byte.xor (xor_all (k ++ n))) m.

Definition pad16 (l : bytes) : bytes := firstn 16 (l ++ repeat Byte.x00 16).

Definition mac (k n ct : bytes) : bytes :=
  map (byte.xor (xor_all ct)) (pad16 k).

Definition bytes_eqb (a b : bytes) : bool :=
  (Nat.eqb (List.length a) (List.length b))
  && forallb (fun p => Byte.eqb (fst p) (snd p)) (combine a b).

Definition ae_lock (k n m : bytes) : bytes :=
  let ct := stream k n m in mac k n ct ++ ct.

Definition ae_unlock (k n box : bytes) : Z * bytes :=
  let tag := firstn 16 box in
  let ct := skipn 16 box in
  if bytes_eqb tag (mac k n ct) then (0, stream k n ct) else (-1, []).

Definition p : Z := 2 ^ 255 - 19.

Definition clamp (z : Z) : Z :=
  Z.lor (Z.land z (2 ^ 255 - 8)) (2 ^ 254).

Definition group : DHGroup := {|
  point := Z;
  valid := fun a => 0 <= a < p;
  add := fun a b => (a * b) mod p;
  base := 9;
  scalar := fun sk => Z.to_pos (clamp (le_combine sk));
  encode := fun a => le_split 32 a;
  decode := fun l => le_combine l mod p;
  degenerate := fun s => le_combine s =? 0;
  kdf := fun s => rev s
|}.

Definition externals : Externals := {|
  rng := Z;
  uninit := fun _ => Byte.xaa;
  randombytes := fun g n => (le_split (Z.to_nat n) g, g + 1);
  crypto_ae_lock := ae_lock;
  crypto_ae_unlock := ae_unlock;
  crypto_x25519_public_key := spec_x25519_public_key group;
  crypto_lock_key := spec_lock_key group
|}.

Definition zeros (n : Z) : bytes := repeat Byte.x00 (Z.to_nat n).

Definition key : bytes := zeros 32.
Definition nonce : bytes := zeros 24.
Definition hello : bytes := list_byte_of_string "hello".
Definition header : bytes := list_byte_of_string "HDR:0001".
Definition other_header : bytes := list_byte_of_string "HDR:0002".
Definition hello32 : bytes := le_split 32 (le_combine hello).

(** The envelope of ["hello"] behind an 8-byte prefix, and the box of the
    empty message. *)
Definition envelope : bytes := header ++ ae_lock key nonce hello.
Definition other_envelope : bytes := other_header ++ ae_lock key nonce hello.
Definition empty_box : bytes := ae_lock key nonce [].

(** A box with the first byte of its tag changed. *)
Definition tamper (box : bytes) : bytes :=
  byte.xor Byte.x01 (hd Byte.x00 box) :: tl box.

End Toy.

(** Inputs of [2^31] and [2^32] bytes, and the box of the latter. *)
Abbreviation big_prefix := (Toy.zeros (2 ^ 31)).
Abbreviation big_message := (Toy.zeros (2 ^ 32)).
Abbreviation big_box :=
  (crypto_ae_lock Toy.externals Toy.key Toy.nonce (Toy.zeros (2 ^ 32))).

(* ================================================================= *)
(** * Properties *)

(** ** Lengths, loads and stores *)

Lemma strlen_nonneg (s : bytes) : 0 <= strlen s.
Proof. unfold strlen; lia. Qed.

Lemma strlen_app (a b : bytes) : strlen (a ++ b) = strlen a + strlen b.
Proof. unfold strlen; rewrite length_app; lia. Qed.

Lemma strlen_nil_inv (s : bytes) : strlen s = 0 -> s = [].
Proof. destruct s; [reflexivity | unfold strlen; simpl; lia]. Qed.

Lemma strlen_firstn (s : bytes) (z : Z) :
  0 <= z <= strlen s -> strlen (firstn (Z.to_nat z) s) = z.
Proof. unfold strlen; intros H; rewrite length_firstn; lia. Qed.

Lemma strlen_malloc (E : Externals) (z : Z) :
  0 <= z -> strlen (malloc E z) = z.
Proof.
  intros H; unfold strlen, malloc.
  rewrite length_map, length_seq; lia.
Qed.

Lemma firstn_strlen_app (a b : bytes) :
  firstn (Z.to_nat (strlen a)) (a ++ b) = a.
Proof.
  unfold strlen; rewrite Nat2Z.id, firstn_app, Nat.sub_diag, firstn_all.
  simpl; apply app_nil_r.
Qed.

Lemma skipn_strlen_app (a b : bytes) :
  skipn (Z.to_nat (strlen a)) (a ++ b) = b.
Proof.
  unfold strlen; rewrite Nat2Z.id, skipn_app, Nat.sub_diag, skipn_all.
  reflexivity.
Qed.

Lemma load_bounds (b : bytes) (off len : Z) (s : bytes) :
  load b off len = Some s ->
  0 <= off /\ 0 <= len /\ off + len <= strlen b /\
  s = firstn (Z.to_nat len) (skipn (Z.to_nat off) b).
Proof.
  unfold load.
  destruct (0 <=? off) eqn:H1, (0 <=? len) eqn:H2,
    (off + len <=? strlen b) eqn:H3; simpl; try discriminate.
  intros [= <-]; repeat split; lia.
Qed.

Lemma load_in_bounds (b : bytes) (off len : Z) :
  0 <= off -> 0 <= len -> off + len <= strlen b ->
  load b off len = Some (firstn (Z.to_nat len) (skipn (Z.to_nat off) b)).
Proof.
  intros H1 H2 H3; unfold load.
  apply Z.leb_le in H1, H2, H3; rewrite H1, H2, H3; reflexivity.
Qed.

Lemma load_out_of_bounds (b : bytes) (off len : Z) :
  off < 0 \/ strlen b < off + len -> load b off len = None.
Proof.
  intros H; unfold load.
  destruct (0 <=? off) eqn:H1; simpl; [| reflexivity].
  destruct (0 <=? len) eqn:H2; simpl; [| reflexivity].
  destruct (off + len <=? strlen b) eqn:H3; [lia | reflexivity].
Qed.

Lemma load_tail (b : bytes) (off : Z) :
  0 <= off <= strlen b ->
  load b off (strlen b - off) = Some (skipn (Z.to_nat off) b).
Proof.
  intros H; rewrite load_in_bounds by lia.
  rewrite firstn_all2; [reflexivity |].
  rewrite length_skipn; unfold strlen in *; lia.
Qed.

Lemma load_all (b : bytes) : load b 0 (strlen b) = Some b.
Proof.
  pose proof (strlen_nonneg b).
  rewrite <- (Z.sub_0_r (strlen b)) at 1.
  rewrite load_tail by lia; reflexivity.
Qed.

Lemma load_head (a b : bytes) : load (a ++ b) 0 (strlen a) = Some a.
Proof.
  pose proof (strlen_nonneg a); pose proof (strlen_nonneg b).
  rewrite load_in_bounds by (rewrite ?strlen_app; lia).
  change (Z.to_nat 0) with 0%nat; rewrite skipn_O, firstn_strlen_app.
  reflexivity.
Qed.

Lemma load_after (a b : bytes) :
  load (a ++ b) (strlen a) (strlen b) = Some b.
Proof.
  pose proof (strlen_nonneg a); pose proof (strlen_nonneg b).
  rewrite load_in_bounds by (rewrite ?strlen_app; lia).
  rewrite skipn_strlen_app.
  unfold strlen; rewrite Nat2Z.id, firstn_all; reflexivity.
Qed.

Lemma store_tail (b : bytes) (off : Z) (src : bytes) :
  0 <= off -> off + strlen src = strlen b ->
  store b off src = Some (firstn (Z.to_nat off) b ++ src).
Proof.
  intros H1 H2; unfold store.
  assert (A : (0 <=? off) = true) by (apply Z.leb_le; lia).
  assert (B : (off + strlen src <=? strlen b) = true) by (apply Z.leb_le; lia).
  rewrite A, B; simpl.
  rewrite skipn_all2 by (unfold strlen in *; lia).
  rewrite app_nil_r; reflexivity.
Qed.

Lemma store_head (b src : bytes) :
  strlen src <= strlen b ->
  store b 0 src = Some (src ++ skipn (Z.to_nat (strlen src)) b).
Proof.
  intros H; unfold store.
  assert (B : (0 + strlen src <=? strlen b) = true) by (apply Z.leb_le; lia).
  rewrite B; reflexivity.
Qed.

Lemma store_over (b src : bytes) :
  strlen src = strlen b -> store b 0 src = Some src.
Proof.
  intros H; rewrite store_head by lia.
  rewrite skipn_all2 by (unfold strlen in *; lia).
  rewrite app_nil_r; reflexivity.
Qed.

(** ** Machine integers *)

Lemma to_size_t_small (z : Z) : 0 <= z <= C.SIZE_MAX -> C.to_size_t z = z.
Proof.
  unfold C.to_size_t, C.SIZE_MAX; intros H; apply Z.mod_small; lia.
Qed.

Lemma to_int_small (z : Z) : C.INT_MIN <= z <= C.INT_MAX -> C.to_int z = z.
Proof.
  unfold C.to_int, C.INT_MIN, C.INT_MAX, C.INT_BITS; intros H.
  rewrite Z.mod_small; lia.
Qed.

(** ** ae_lock *)

Section LockFacts.

Context (E : Externals).

(** The envelope is the prefix followed by the box of the primitive. *)
Lemma ln_ae_lock_layout (k n m : bytes) (pfx_arg : option bytes) :
  ae_lock_writes E ->
  strlen n = 24 -> strlen k = 32 ->
  strlen (luaL_optlstring pfx_arg []) mod 8 = 0 ->
  strlen m + 16 + strlen (luaL_optlstring pfx_arg []) <= C.SIZE_MAX ->
  ln_ae_lock E k n m pfx_arg =
  Return [LString (luaL_optlstring pfx_arg [] ++ crypto_ae_lock E k n m)].
Proof.
  intros HW Hn Hk H8 Hfit.
  set (pfx := luaL_optlstring pfx_arg []) in *.
  pose proof (strlen_nonneg m) as Hm.
  pose proof (strlen_nonneg pfx) as Hp.
  pose proof (HW k n m) as Hbox.
  unfold ln_ae_lock; fold pfx; clearbody pfx.
  rewrite Hn, Hk, H8; simpl negb; cbv iota.
  rewrite to_size_t_small by lia.
  set (bufln := strlen m + 16 + strlen pfx).
  assert (Hbuf : strlen (malloc E bufln) = bufln)
    by (apply strlen_malloc; unfold bufln; lia).
  rewrite store_tail by (unfold bufln in *; lia).
  set (hd := firstn (Z.to_nat (strlen pfx)) (malloc E bufln)).
  assert (Hhd : strlen hd = strlen pfx)
    by (apply strlen_firstn; unfold bufln in *; lia).
  assert (Hall : bufln = strlen (pfx ++ crypto_ae_lock E k n m))
    by (rewrite strlen_app; unfold bufln; lia).
  destruct (0 <? strlen pfx) eqn:Hpos.
  - rewrite store_head by (rewrite strlen_app; lia).
    rewrite <- Hhd, skipn_strlen_app, Hall, load_all; reflexivity.
  - apply Z.ltb_ge in Hpos.
    assert (Hnil : pfx = []) by (apply strlen_nil_inv; lia).
    rewrite (strlen_nil_inv hd) by lia.
    rewrite Hall, Hnil; simpl app; rewrite load_all; reflexivity.
Qed.

End LockFacts.

(** ** ae_unlock *)

Section UnlockFacts.

Context (E : Externals).

(** With a key and a nonce of the right sizes, [ln_ae_unlock] is decided
    by the call of the primitive. *)
Lemma ln_ae_unlock_run (k n c : bytes) (i_arg : option Z) :
  strlen n = 24 -> strlen k = 32 ->
  ln_ae_unlock E k n c i_arg =
  match tag_verification E k n c i_arg with
  | None => Undefined
  | Some (r, out) =>
      access buf <- store (malloc E (strlen c)) 0 out;
      if negb (r =? 0) then Return [LNil; lua_literal "unlock error"]
      else
        access s <- load buf 0
          (C.to_size_t (strlen c - C.to_int (luaL_optinteger i_arg 0) - 16));
        Return [LString s]
  end.
Proof.
  intros Hn Hk; unfold ln_ae_unlock, tag_verification.
  rewrite Hn, Hk; simpl negb; cbv iota.
  destruct (load c _ _); reflexivity.
Qed.


(** The region read by the primitive lies inside the envelope. *)
Lemma tag_verification_region (k n c : bytes) (i_arg : option Z) r out :
  tag_verification E k n c i_arg = Some (r, out) ->
  forall i mln,
    i = C.to_int (luaL_optinteger i_arg 0) ->
    mln = C.to_size_t (strlen c - i - 16) ->
    exists box,
      load c i (16 + mln) = Some box /\
      strlen box = 16 + mln /\
      0 <= i /\ 0 <= mln /\ i + 16 + mln <= strlen c /\
      crypto_ae_unlock E k n box = (r, out).
Proof.
  unfold tag_verification; intros H i mln -> ->.
  set (i := C.to_int (luaL_optinteger i_arg 0)) in *.
  set (mln := C.to_size_t (strlen c - i - 16)) in *.
  destruct (load c i (16 + mln)) as [box |] eqn:L; [| discriminate].
  assert (Hcall : crypto_ae_unlock E k n box = (r, out)) by congruence.
  apply load_bounds in L as L'; destruct L' as (H1 & H2 & H3 & Hbox).
  assert (0 <= mln) by (apply Z.mod_pos_bound; reflexivity).
  exists box; repeat split; try assumption; try lia.
  subst box; apply strlen_firstn.
  unfold strlen in *; rewrite length_skipn; lia.
Qed.

Lemma tag_verification_out_of_bounds (k n c : bytes) (i_arg : option Z) :
  C.to_int (luaL_optinteger i_arg 0) < 0 \/
  strlen c - C.to_int (luaL_optinteger i_arg 0) - 16 < 0 ->
  tag_verification E k n c i_arg = None.
Proof.
  intros H; unfold tag_verification.
  set (i := C.to_int (luaL_optinteger i_arg 0)) in *.
  set (mln := C.to_size_t (strlen c - i - 16)).
  assert (0 <= mln) by (apply Z.mod_pos_bound; reflexivity).
  rewrite load_out_of_bounds; [reflexivity |].
  destruct (Z.lt_ge_cases i 0); [left; assumption | right; lia].
Qed.

Lemma tag_verification_in_bounds (k n c : bytes) (i_arg : option Z) i :
  i = C.to_int (luaL_optinteger i_arg 0) ->
  0 <= i -> i + 16 <= strlen c -> strlen c <= C.SIZE_MAX ->
  tag_verification E k n c i_arg =
  Some (crypto_ae_unlock E k n (skipn (Z.to_nat i) c)).
Proof.
  intros Hi H1 H2 H3; unfold tag_verification; rewrite <- Hi.
  rewrite to_size_t_small by lia.
  replace (16 + (strlen c - i - 16)) with (strlen c - i) by lia.
  rewrite load_tail by lia; reflexivity.
Qed.

Lemma ln_ae_unlock_rejected (k n c : bytes) (i_arg : option Z) r out :
  ae_unlock_writes E ->
  strlen n = 24 -> strlen k = 32 ->
  tag_verification E k n c i_arg = Some (r, out) -> r <> 0 ->
  ln_ae_unlock E k n c i_arg = Return [LNil; lua_literal "unlock error"].
Proof.
  intros HW Hn Hk HT Hr.
  rewrite ln_ae_unlock_run, HT by assumption.
  destruct (tag_verification_region _ _ _ _ _ _ HT _ _ eq_refl eq_refl)
    as (box & _ & Hlen & Hi & Hm & Hc & Hbox).
  destruct (HW k n box) as [Hout _]; [lia |].
  rewrite Hbox in Hout; simpl in Hout.
  pose proof (strlen_nonneg c).
  rewrite store_head by (rewrite strlen_malloc; lia).
  apply Z.eqb_neq in Hr; rewrite Hr; reflexivity.
Qed.

Lemma ln_ae_unlock_accepted (k n c : bytes) (i_arg : option Z) out :
  strlen n = 24 -> strlen k = 32 ->
  tag_verification E k n c i_arg = Some (0, out) ->
  strlen out =
    C.to_size_t (strlen c - C.to_int (luaL_optinteger i_arg 0) - 16) ->
  ln_ae_unlock E k n c i_arg = Return [LString out].
Proof.
  intros Hn Hk HT Hout.
  rewrite ln_ae_unlock_run, HT by assumption.
  destruct (tag_verification_region _ _ _ _ _ _ HT _ _ eq_refl eq_refl)
    as (box & _ & Hlen & Hi & Hm & Hc & Hbox).
  pose proof (strlen_nonneg c).
  rewrite store_head by (rewrite strlen_malloc; lia).
  simpl negb; cbv iota.
  rewrite <- Hout, load_head; reflexivity.
Qed.

(** A negative offset or a computed length below zero: the primitive is
    called on a region that is not inside the envelope; no error is
    raised. *)
Lemma ln_ae_unlock_out_of_bounds (k n c : bytes) (i_arg : option Z) :
  strlen n = 24 -> strlen k = 32 ->
  C.to_int (luaL_optinteger i_arg 0) < 0 \/
  strlen c - C.to_int (luaL_optinteger i_arg 0) - 16 < 0 ->
  ln_ae_unlock E k n c i_arg = Undefined.
Proof.
  intros Hn Hk H.
  rewrite ln_ae_unlock_run, tag_verification_out_of_bounds by assumption.
  reflexivity.
Qed.

End UnlockFacts.

(** The optional arguments: no prefix is the empty prefix, no offset is
    offset 0. *)
Lemma ln_ae_lock_no_prefix (E : Externals) (k n m : bytes) :
  ln_ae_lock E k n m None = ln_ae_lock E k n m (Some []).
Proof. reflexivity. Qed.

Lemma ln_ae_unlock_no_offset (E : Externals) (k n c : bytes) :
  ln_ae_unlock E k n c None = ln_ae_unlock E k n c (Some 0).
Proof. reflexivity. Qed.

(** ** The claims on the envelope *)

(** C5 - [Lock] fails with [InvalidInput] for every key that is not 32 bytes
    long, every nonce that is not 24 bytes long and every prefix whose length
    is not a multiple of 8; [Unlock] fails with [InvalidInput] for every key
    that is not 32 bytes long and every nonce that is not 24 bytes long. *)
Theorem invalid_sizes_rejected (E : Externals) (k n m c : bytes)
    (pfx_arg : option bytes) (i_arg : option Z) :
  (strlen k <> 32 \/ strlen n <> 24 \/
   strlen (luaL_optlstring pfx_arg []) mod 8 <> 0 ->
   InvalidInput (ln_ae_lock E k n m pfx_arg)) /\
  (strlen k <> 32 \/ strlen n <> 24 ->
   InvalidInput (ln_ae_unlock E k n c i_arg)).
Proof.
  split; intros H.
  - unfold ln_ae_lock.
    destruct (strlen n =? 24) eqn:Hn; simpl; [| eexists; reflexivity].
    destruct (strlen k =? 32) eqn:Hk; simpl; [| eexists; reflexivity].
    destruct (strlen (luaL_optlstring pfx_arg []) mod 8 =? 0) eqn:Hp; simpl;
      [| eexists; reflexivity].
    apply Z.eqb_eq in Hn, Hk, Hp; lia.
  - unfold ln_ae_unlock.
    destruct (strlen n =? 24) eqn:Hn; simpl; [| eexists; reflexivity].
    destruct (strlen k =? 32) eqn:Hk; simpl; [| eexists; reflexivity].
    apply Z.eqb_eq in Hn, Hk; lia.
Qed.

(** C6 - For a 32-byte key, a 24-byte nonce, a plaintext [m] and a prefix
    whose length is a multiple of 8, [Lock] returns an envelope of
    [len(prefix) + len(m) + 16] bytes, with the prefix at offset 0 and the
    ciphertext and tag right after it.  (The sizes are those of objects in
    memory: their sum is a [size_t].) *)
Theorem lock_envelope_layout (E : Externals) (k n m pfx : bytes) :
  ae_lock_writes E ->
  strlen k = 32 -> strlen n = 24 -> strlen pfx mod 8 = 0 ->
  strlen pfx + strlen m + 16 <= C.SIZE_MAX ->
  exists env,
    ln_ae_lock E k n m (Some pfx) = Return [LString env] /\
    strlen env = strlen pfx + strlen m + 16 /\
    load env 0 (strlen pfx) = Some pfx /\
    load env (strlen pfx) (strlen m + 16) = Some (crypto_ae_lock E k n m).
Proof.
  intros HW Hk Hn H8 Hfit.
  exists (pfx ++ crypto_ae_lock E k n m).
  pose proof (HW k n m) as Hbox.
  split; [| split; [| split]].
  - apply ln_ae_lock_layout; simpl; try assumption; lia.
  - rewrite strlen_app; lia.
  - apply load_head.
  - replace (strlen m + 16) with (strlen (crypto_ae_lock E k n m)) by lia.
    apply load_after.
Qed.

(** Where the offset fits the [int] of [ln_ae_unlock], the round trip
    holds: for a 32-byte key, a 24-byte nonce, a plaintext and a prefix
    whose length is a multiple of 8 and at most [INT_MAX], unlocking the
    envelope made by [Lock], with the same key and nonce and the length of
    the prefix as offset, returns the plaintext. *)
Theorem unlock_lock_roundtrip (E : Externals) (k n m pfx : bytes) :
  ae_lock_writes E -> ae_roundtrip E ->
  strlen k = 32 -> strlen n = 24 -> strlen pfx mod 8 = 0 ->
  strlen pfx + strlen m + 16 <= C.SIZE_MAX ->
  strlen pfx <= C.INT_MAX ->
  exists env,
    ln_ae_lock E k n m (Some pfx) = Return [LString env] /\
    ln_ae_unlock E k n env (Some (strlen pfx)) = Return [LString m].
Proof.
  intros HW HR Hk Hn H8 Hfit Hint.
  exists (pfx ++ crypto_ae_lock E k n m).
  pose proof (HW k n m) as Hbox.
  pose proof (strlen_nonneg pfx) as Hp.
  pose proof (strlen_nonneg m) as Hm.
  split; [apply ln_ae_lock_layout; simpl; try assumption; lia |].
  assert (Hi : C.to_int (luaL_optinteger (Some (strlen pfx)) 0) = strlen pfx).
  { simpl; apply to_int_small; unfold C.INT_MIN; simpl; lia. }
  apply ln_ae_unlock_accepted; try assumption.
  - rewrite (tag_verification_in_bounds E k n _ _ (strlen pfx));
      rewrite ?Hi, ?strlen_app; try lia.
    rewrite skipn_strlen_app, HR by assumption; reflexivity.
  - rewrite Hi, strlen_app, to_size_t_small; lia.
Qed.

(** C4 - When the tag verification of an [Unlock] call with a 32-byte key
    and a 24-byte nonce fails, the call returns [nil] and the message
    ["unlock error"]: no error is raised and no plaintext is returned. *)
Theorem mac_mismatch_returns_nil_and_message (E : Externals) (k n c : bytes)
    (i_arg : option Z) :
  ae_unlock_writes E ->
  strlen k = 32 -> strlen n = 24 ->
  tag_verification_fails E k n c i_arg ->
  ln_ae_unlock E k n c i_arg = Return [LNil; lua_literal "unlock error"].
Proof.
  intros HW Hk Hn (r & out & HT & Hr).
  eapply ln_ae_unlock_rejected; eassumption.
Qed.


Lemma load_agree (c1 c2 : bytes) (off len : Z) :
  strlen c1 = strlen c2 ->
  skipn (Z.to_nat off) c1 = skipn (Z.to_nat off) c2 ->
  load c1 off len = load c2 off len.
Proof. intros H1 H2; unfold load; rewrite H1, H2; reflexivity. Qed.

(** Where the offset fits the [int] of [ln_ae_unlock], the bytes before
    it are not read: for an offset from 0 to [INT_MAX], two envelopes of
    equal length that agree on all bytes at positions at and after the
    offset give the same [Unlock] result for the same key, nonce and
    offset, and a returned plaintext is what the primitive made of bytes
    read at and after the offset. *)
Theorem unlock_ignores_bytes_before_offset (E : Externals)
    (k n c1 c2 : bytes) (off : Z) :
  ae_unlock_writes E ->
  0 <= off <= C.INT_MAX ->
  strlen c1 = strlen c2 ->
  skipn (Z.to_nat off) c1 = skipn (Z.to_nat off) c2 ->
  ln_ae_unlock E k n c1 (Some off) = ln_ae_unlock E k n c2 (Some off) /\
  (forall s,
      ln_ae_unlock E k n c1 (Some off) = Return [LString s] ->
      exists len box,
        load c1 off len = Some box /\ crypto_ae_unlock E k n box = (0, s)).
Proof.
  intros HW Hint Hlen Hskip.
  assert (Hi : C.to_int (luaL_optinteger (Some off) 0) = off).
  { simpl; apply to_int_small; unfold C.INT_MIN; simpl; lia. }
  split.
  - unfold ln_ae_unlock; rewrite Hlen, Hi.
    rewrite (load_agree c1 c2) by assumption; reflexivity.
  - intros s Hs; unfold ln_ae_unlock in Hs; rewrite Hi in Hs.
    destruct (negb (strlen n =? 24)); [discriminate |].
    destruct (negb (strlen k =? 32)); [discriminate |].
    set (mln := C.to_size_t (strlen c1 - off - 16)) in *.
    destruct (load c1 off (16 + mln)) as [box |] eqn:L; [| discriminate].
    destruct (crypto_ae_unlock E k n box) as [r out] eqn:Hbox.
    apply load_bounds in L as L'; destruct L' as (H0 & H1 & H2 & Hb).
    assert (Hbl : strlen box = 16 + mln).
    { subst box; apply strlen_firstn.
      unfold strlen in *; rewrite length_skipn; lia. }
    assert (0 <= mln) by (apply Z.mod_pos_bound; reflexivity).
    destruct (HW k n box) as [Hout Hexact]; [lia |].
    rewrite Hbox in Hout, Hexact; simpl in Hout, Hexact.
    rewrite store_head in Hs by (rewrite strlen_malloc; lia).
    destruct (r =? 0) eqn:Hr; simpl in Hs; [| discriminate].
    apply Z.eqb_eq in Hr; subst r.
    replace mln with (strlen out) in Hs by lia.
    rewrite load_head in Hs; injection Hs as <-.
    exists (16 + mln), box; split; assumption.
Qed.

(** ** Key exchange *)

Section KeyExchangeFacts.

Context (E : Externals).

Lemma load_whole (s : bytes) (len : Z) :
  strlen s = len -> load s 0 len = Some s.
Proof. intros <-; apply load_all. Qed.

Lemma array32_filled (out : bytes) :
  strlen out = 32 ->
  (access a <- store (malloc E 32) 0 out; access s <- load a 0 32;
   Return [LString s]) = Return [LString out].
Proof.
  intros H.
  rewrite store_over by (rewrite strlen_malloc; lia).
  rewrite <- H, load_all; reflexivity.
Qed.

Lemma ln_x25519_public_key_run (sk : bytes) :
  x25519_public_key_writes E -> strlen sk = 32 ->
  ln_x25519_public_key E sk =
  Return [LString (crypto_x25519_public_key E sk)].
Proof.
  intros HW Hsk; unfold ln_x25519_public_key.
  rewrite Hsk; simpl negb; cbv iota.
  apply array32_filled, HW.
Qed.

Lemma ln_lock_key_run (sk pk : bytes) :
  lock_key_writes E -> strlen sk = 32 -> strlen pk = 32 ->
  ln_lock_key E sk pk = Return [LString (snd (crypto_lock_key E sk pk))].
Proof.
  intros HW Hsk Hpk; unfold ln_lock_key.
  rewrite Hsk, Hpk; simpl negb; cbv iota.
  pose proof (HW sk pk) as Hout.
  destruct (crypto_lock_key E sk pk) as [r out]; simpl in *.
  apply array32_filled, Hout.
Qed.

(** The public key is pushed first, the secret key second. *)
Lemma ln_x25519_keypair_run (g : rng E) :
  randombytes_fills E -> x25519_public_key_writes E ->
  ln_x25519_keypair E g =
  (Return [LString (crypto_x25519_public_key E (fst (randombytes E g 32)));
           LString (fst (randombytes E g 32))],
   snd (randombytes E g 32)).
Proof.
  intros HR HW; unfold ln_x25519_keypair.
  pose proof (HR g 32 ltac:(lia)) as Hrnd.
  destruct (randombytes E g 32) as [rnd g']; simpl in *.
  rewrite store_over by (rewrite strlen_malloc; lia).
  rewrite store_over by (rewrite strlen_malloc, HW; lia).
  rewrite (load_whole _ 32 (HW rnd)), (load_whole _ 32 Hrnd).
  reflexivity.
Qed.

End KeyExchangeFacts.

(** ** Scalar multiplication in the group of the spec *)

Section Group.

Context (G : DHGroup) (L : DHLaws G).

Lemma scalarmult_succ (n : positive) (P : point G) :
  scalarmult G (Pos.succ n) P = add G P (scalarmult G n P).
Proof. apply Pos.iter_op_succ, (add_assoc G L). Qed.

Lemma scalarmult_add (n m : positive) (P : point G) :
  scalarmult G (n + m) P = add G (scalarmult G n P) (scalarmult G m P).
Proof.
  induction n as [| n IH] using Pos.peano_ind.
  - rewrite Pos.add_1_l, scalarmult_succ; reflexivity.
  - rewrite Pos.add_succ_l, !scalarmult_succ, IH.
    apply (add_assoc G L).
Qed.

Lemma scalarmult_mul (n m : positive) (P : point G) :
  scalarmult G (n * m) P = scalarmult G n (scalarmult G m P).
Proof.
  induction n as [| n IH] using Pos.peano_ind.
  - rewrite Pos.mul_1_l; reflexivity.
  - rewrite Pos.mul_succ_l, scalarmult_add, scalarmult_succ, IH.
    reflexivity.
Qed.

Lemma scalarmult_comm (n m : positive) (P : point G) :
  scalarmult G n (scalarmult G m P) = scalarmult G m (scalarmult G n P).
Proof. rewrite <- !scalarmult_mul, Pos.mul_comm; reflexivity. Qed.

Lemma scalarmult_valid (n : positive) (P : point G) :
  valid G P -> valid G (scalarmult G n P).
Proof.
  intros HP; induction n as [| n IH] using Pos.peano_ind.
  - exact HP.
  - rewrite scalarmult_succ; apply (add_valid G L); assumption.
Qed.

Lemma spec_public_key_writes (E : Externals) :
  x25519_as_specified G E -> x25519_public_key_writes E.
Proof.
  intros [H _] sk; rewrite H; apply (encode_length G L).
Qed.

Lemma spec_lock_key_writes (E : Externals) :
  x25519_as_specified G E -> lock_key_writes E.
Proof.
  intros [_ H] sk pk; rewrite H; simpl.
  apply (kdf_length G L), (encode_length G L).
Qed.

(** The shared keys of the two sides, on the primitives of the spec. *)
Lemma spec_lock_key_symmetric (skA skB : bytes) :
  spec_lock_key G skA (spec_x25519_public_key G skB) =
  spec_lock_key G skB (spec_x25519_public_key G skA).
Proof.
  unfold spec_lock_key, spec_x25519_public_key.
  rewrite !(encode_scalarmult G L)
    by (apply scalarmult_valid, (base_valid G L)).
  rewrite scalarmult_comm; reflexivity.
Qed.

End Group.

(** C7 - For two 32-byte secret keys [skA] and [skB] with public keys
    [pkA = DerivePublicKey(skA)] and [pkB = DerivePublicKey(skB)],
    [DeriveSessionKey(skA, pkB)] equals [DeriveSessionKey(skB, pkA)]. *)
Theorem session_key_symmetric (G : DHGroup) (E : Externals)
    (skA skB : bytes) :
  DHLaws G -> x25519_as_specified G E ->
  strlen skA = 32 -> strlen skB = 32 ->
  exists pkA pkB key,
    ln_x25519_public_key E skA = Return [LString pkA] /\
    ln_x25519_public_key E skB = Return [LString pkB] /\
    ln_lock_key E skA pkB = Return [LString key] /\
    ln_lock_key E skB pkA = Return [LString key].
Proof.
  intros L HS HA HB.
  pose proof (spec_public_key_writes G L E HS) as HWp.
  pose proof (spec_lock_key_writes G L E HS) as HWk.
  exists (crypto_x25519_public_key E skA), (crypto_x25519_public_key E skB),
    (snd (crypto_lock_key E skA (crypto_x25519_public_key E skB))).
  repeat split.
  - apply ln_x25519_public_key_run; assumption.
  - apply ln_x25519_public_key_run; assumption.
  - apply ln_lock_key_run; trivial.
  - rewrite ln_lock_key_run by trivial.
    destruct HS as [Hp Hk]; rewrite !Hk, !Hp.
    rewrite (spec_lock_key_symmetric G L skA skB); reflexivity.
Qed.

(** C9 - [DeriveSessionKey] has no failure other than the two length
    checks: for 32-byte inputs it returns the 32 bytes that the primitive
    wrote, whatever status the primitive returned. *)
Theorem lock_key_discards_status (E : Externals) (sk pk : bytes) :
  lock_key_writes E ->
  strlen sk = 32 -> strlen pk = 32 ->
  exists key,
    ln_lock_key E sk pk = Return [LString key] /\
    strlen key = 32 /\
    key = snd (crypto_lock_key E sk pk).
Proof.
  intros HW Hsk Hpk.
  exists (snd (crypto_lock_key E sk pk)); repeat split.
  - apply ln_lock_key_run; assumption.
  - apply HW.
Qed.

(** ** The small instance satisfies the contracts *)

Module ToyFacts.

Import Toy.

Lemma byte_xor_involutive (a b : byte) : byte.xor a (byte.xor a b) = b.
Proof.
  apply byte.unsigned_inj; unfold byte.xor.
  rewrite !byte.unsigned_of_Z.
  rewrite <- (byte.wrap_unsigned b) at 2.
  unfold byte.wrap.
  rewrite <- !Z.land_ones by lia.
  Z.bitblast.
Qed.

Lemma byte_xor_1_neq (b : byte) : byte.xor Byte.x01 b <> b.
Proof. destruct b; discriminate. Qed.

Lemma stream_involutive (k n m : bytes) : stream k n (stream k n m) = m.
Proof.
  unfold stream; rewrite map_map.
  rewrite <- (map_id m) at 2; apply map_ext.
  intros b; apply byte_xor_involutive.
Qed.

Lemma strlen_stream (k n m : bytes) : strlen (stream k n m) = strlen m.
Proof. unfold strlen, stream; rewrite length_map; reflexivity. Qed.

Lemma mac_length (k n ct : bytes) : List.length (mac k n ct) = 16%nat.
Proof.
  unfold mac, pad16.
  rewrite length_map, length_firstn, length_app, repeat_length; lia.
Qed.

Lemma bytes_eqb_refl (a : bytes) : bytes_eqb a a = true.
Proof.
  unfold bytes_eqb; rewrite Nat.eqb_refl; simpl.
  induction a as [| b a IH]; simpl; [reflexivity |].
  rewrite (Byte.byte_dec_lb eq_refl), IH; reflexivity.
Qed.

Lemma bytes_eqb_head (x b : byte) (r : bytes) :
  x <> b -> bytes_eqb (x :: r) (b :: r) = false.
Proof.
  intros H; unfold bytes_eqb; simpl.
  destruct (Byte.eqb x b) eqn:Heq.
  - apply Byte.byte_dec_bl in Heq; contradiction.
  - simpl; apply andb_false_r.
Qed.

(** The primitive on a box of a 16-byte tag and a ciphertext. *)
Lemma ae_unlock_box (k n tag ct : bytes) :
  List.length tag = 16%nat ->
  ae_unlock k n (tag ++ ct) =
  if bytes_eqb tag (mac k n ct) then (0, stream k n ct) else (-1, []).
Proof.
  intros H; unfold ae_unlock.
  rewrite <- H, firstn_app, Nat.sub_diag, firstn_all.
  rewrite skipn_app, Nat.sub_diag, skipn_all.
  simpl; rewrite app_nil_r; reflexivity.
Qed.

Lemma lock_writes : ae_lock_writes externals.
Proof.
  intros k n m; simpl; unfold ae_lock.
  rewrite strlen_app, strlen_stream.
  unfold strlen at 1; rewrite mac_length; reflexivity.
Qed.

Lemma roundtrip : ae_roundtrip externals.
Proof.
  intros k n m _ _; simpl; unfold ae_lock.
  rewrite ae_unlock_box by apply mac_length.
  rewrite bytes_eqb_refl, stream_involutive; reflexivity.
Qed.

Lemma unlock_writes : ae_unlock_writes externals.
Proof.
  intros k n box Hbox; simpl; unfold ae_unlock.
  assert (Hct : strlen (stream k n (skipn 16 box)) = strlen box - 16).
  { rewrite strlen_stream; unfold strlen in *.
    rewrite length_skipn; lia. }
  destruct (bytes_eqb _ _); cbn [fst snd].
  - split; [rewrite Hct; lia | intros _; exact Hct].
  - split; [unfold strlen in *; simpl; lia | discriminate].
Qed.

(** A box whose first tag byte was changed is rejected. *)
Lemma tampered_tag_rejected (k n m : bytes) :
  crypto_ae_unlock externals k n (tamper (crypto_ae_lock externals k n m))
  = (-1, []).
Proof.
  simpl; unfold tamper, ae_lock.
  pose proof (mac_length k n (stream k n m)) as Hlen.
  destruct (mac k n (stream k n m)) as [| b r] eqn:Hmac;
    [discriminate |].
  cbn [app hd tl].
  change (byte.xor Byte.x01 b :: r ++ stream k n m)
    with ((byte.xor Byte.x01 b :: r) ++ stream k n m).
  rewrite ae_unlock_box by exact Hlen.
  rewrite Hmac, bytes_eqb_head by apply byte_xor_1_neq.
  reflexivity.
Qed.

(** The last 16 bytes of the box of a message of zeros, under the zero key
    and nonce, are zeros: they are the box of the empty message. *)
Lemma box_of_zeros_tail (z : Z) :
  16 <= z ->
  skipn (Z.to_nat z) (crypto_ae_lock externals key nonce (zeros z))
  = zeros 16.
Proof.
  intros Hz; cbn [crypto_ae_lock externals]; unfold ae_lock.
  rewrite skipn_app, mac_length.
  rewrite skipn_all2 by (rewrite mac_length; lia).
  unfold stream, zeros at 1; rewrite map_repeat.
  replace (byte.xor (xor_all (key ++ nonce)) Byte.x00) with Byte.x00
    by reflexivity.
  replace (Z.to_nat z) with ((Z.to_nat z - 16) + 16)%nat at 2 by lia.
  rewrite repeat_app, skipn_app, repeat_length, Nat.sub_diag.
  rewrite skipn_all2 by (rewrite repeat_length; lia).
  reflexivity.
Qed.

Lemma group_laws : DHLaws group.
Proof.
  split; simpl.
  - intros a b c.
    rewrite Z.mul_mod_idemp_r, Z.mul_mod_idemp_l by discriminate.
    rewrite Z.mul_assoc; reflexivity.
  - intros a b _ _; apply Z.mod_pos_bound; reflexivity.
  - split; [discriminate | reflexivity].
  - intros n a [H0 Hp]; rewrite le_combine_split.
    rewrite (Z.mod_small a (2 ^ _)).
    + rewrite (Z.mod_small a p) by (split; assumption); reflexivity.
    + split; [assumption |].
      eapply Z.lt_trans; [exact Hp | reflexivity].
  - intros a; unfold strlen; rewrite length_le_split; reflexivity.
  - intros s Hs; unfold strlen in *; rewrite length_rev; exact Hs.
Qed.

Lemma as_specified : x25519_as_specified group externals.
Proof. split; reflexivity. Qed.

Lemma random_fills : randombytes_fills externals.
Proof.
  intros g n Hn; simpl; unfold strlen.
  rewrite length_le_split; lia.
Qed.

Lemma strlen_zeros (z : Z) : 0 <= z -> strlen (zeros z) = z.
Proof.
  intros H; unfold strlen, zeros; rewrite repeat_length; lia.
Qed.

End ToyFacts.

(** ** The claims on concrete inputs *)

Lemma invalid_sizes_rejected_witness :
  InvalidInput
    (ln_ae_lock Toy.externals Toy.key Toy.nonce Toy.hello
       (Some (Toy.zeros 12))) /\
  InvalidInput
    (ln_ae_unlock Toy.externals (Toy.zeros 31) Toy.nonce Toy.envelope None).
Proof.
  split.
  - apply (proj1 (invalid_sizes_rejected Toy.externals Toy.key Toy.nonce
                    Toy.hello [] (Some (Toy.zeros 12)) None)).
    right; right; vm_compute; discriminate.
  - apply (proj2 (invalid_sizes_rejected Toy.externals (Toy.zeros 31)
                    Toy.nonce [] Toy.envelope None None)).
    left; vm_compute; discriminate.
Defined.

Lemma lock_envelope_layout_witness :
  exists env,
    ln_ae_lock Toy.externals Toy.key Toy.nonce Toy.hello (Some Toy.header)
    = Return [LString env] /\
    strlen env = strlen Toy.header + strlen Toy.hello + 16 /\
    load env 0 (strlen Toy.header) = Some Toy.header /\
    load env (strlen Toy.header) (strlen Toy.hello + 16)
    = Some (crypto_ae_lock Toy.externals Toy.key Toy.nonce Toy.hello).
Proof.
  apply (lock_envelope_layout Toy.externals Toy.key Toy.nonce Toy.hello
           Toy.header ToyFacts.lock_writes); try reflexivity.
  vm_compute; discriminate.
Defined.

Lemma unlock_lock_roundtrip_witness :
  exists env,
    ln_ae_lock Toy.externals Toy.key Toy.nonce Toy.hello (Some Toy.header)
    = Return [LString env] /\
    ln_ae_unlock Toy.externals Toy.key Toy.nonce env
      (Some (strlen Toy.header))
    = Return [LString Toy.hello].
Proof.
  apply (unlock_lock_roundtrip Toy.externals Toy.key Toy.nonce Toy.hello
           Toy.header ToyFacts.lock_writes ToyFacts.roundtrip);
    try reflexivity; vm_compute; discriminate.
Defined.

Lemma mac_mismatch_witness :
  tag_verification_fails Toy.externals Toy.key Toy.nonce Toy.envelope None /\
  ln_ae_unlock Toy.externals Toy.key Toy.nonce Toy.envelope None
  = Return [LNil; lua_literal "unlock error"].
Proof.
  assert (H : tag_verification_fails Toy.externals Toy.key Toy.nonce
                Toy.envelope None).
  { exists (-1), []; split; [vm_compute; reflexivity | discriminate]. }
  split; [exact H |].
  apply (mac_mismatch_returns_nil_and_message Toy.externals Toy.key Toy.nonce
           Toy.envelope None ToyFacts.unlock_writes eq_refl eq_refl H).
Defined.


Lemma unlock_ignores_bytes_before_offset_witness :
  ln_ae_unlock Toy.externals Toy.key Toy.nonce Toy.envelope (Some 8)
  = ln_ae_unlock Toy.externals Toy.key Toy.nonce Toy.other_envelope (Some 8)
  /\
  (forall s,
      ln_ae_unlock Toy.externals Toy.key Toy.nonce Toy.envelope (Some 8)
      = Return [LString s] ->
      exists len box,
        load Toy.envelope 8 len = Some box /\
        crypto_ae_unlock Toy.externals Toy.key Toy.nonce box = (0, s)).
Proof.
  apply (unlock_ignores_bytes_before_offset Toy.externals Toy.key Toy.nonce
           Toy.envelope Toy.other_envelope 8 ToyFacts.unlock_writes);
    try reflexivity.
  split; vm_compute; discriminate.
Defined.

Lemma session_key_symmetric_witness :
  exists pkA pkB key,
    ln_x25519_public_key Toy.externals Toy.key = Return [LString pkA] /\
    ln_x25519_public_key Toy.externals Toy.hello32 = Return [LString pkB] /\
    ln_lock_key Toy.externals Toy.key pkB = Return [LString key] /\
    ln_lock_key Toy.externals Toy.hello32 pkA = Return [LString key].
Proof.
  apply (session_key_symmetric Toy.group Toy.externals Toy.key Toy.hello32
           ToyFacts.group_laws ToyFacts.as_specified);
    reflexivity.
Defined.

Lemma lock_key_discards_status_witness :
  fst (crypto_lock_key Toy.externals Toy.key (Toy.zeros 32)) = -1 /\
  exists key,
    ln_lock_key Toy.externals Toy.key (Toy.zeros 32) = Return [LString key] /\
    strlen key = 32 /\
    key = snd (crypto_lock_key Toy.externals Toy.key (Toy.zeros 32)).
Proof.
  split; [vm_compute; reflexivity |].
  apply (lock_key_discards_status Toy.externals Toy.key (Toy.zeros 32)
           (spec_lock_key_writes Toy.group ToyFacts.group_laws Toy.externals
              ToyFacts.as_specified));
    reflexivity.
Defined.

(** ** Where the code departs from the claims *)

(** C2 - An envelope of 10 bytes at offset 0: the computed length
    [10 - 0 - 16] is negative, and the call is not rejected; the length
    wraps to [2^64 - 6] and the primitive is run on a region that ends
    outside the envelope. *)
Theorem short_envelope_not_rejected :
  strlen Toy.key = 32 /\ strlen Toy.nonce = 24 /\
  strlen (Toy.zeros 10) - 0 - 16 < 0 /\
  C.to_size_t (strlen (Toy.zeros 10) - C.to_int 0 - 16) = 2 ^ 64 - 6 /\
  ln_ae_unlock Toy.externals Toy.key Toy.nonce (Toy.zeros 10) (Some 0)
  = Undefined /\
  ~ InvalidInput
      (ln_ae_unlock Toy.externals Toy.key Toy.nonce (Toy.zeros 10) (Some 0)).
Proof.
  repeat split; try reflexivity.
  intros [msg H]; vm_compute in H; discriminate.
Qed.

(** C3 - [x25519_keypair] returns the public key first and the secret key
    second: the first value is the public key of the 32 bytes drawn from
    the random source, which are the second value. *)
Theorem keypair_returns_public_key_first :
  randombytes Toy.externals 7 32 = (le_split 32 7, 8) /\
  ln_x25519_keypair Toy.externals 7 =
  (Return [LString (crypto_x25519_public_key Toy.externals (le_split 32 7));
           LString (le_split 32 7)], 8) /\
  crypto_x25519_public_key Toy.externals (le_split 32 7) <> le_split 32 7.
Proof.
  repeat split; try (vm_compute; reflexivity).
  vm_compute; discriminate.
Qed.

(** *** Offsets beyond [INT_MAX] *)

Section BeyondIntMax.

Context (E : Externals).

(** A prefix of [2^31] bytes: the offset becomes [INT_MIN]. *)
Lemma unlock_after_prefix_of_2_31 (k n m pfx : bytes) :
  ae_lock_writes E ->
  strlen k = 32 -> strlen n = 24 ->
  strlen pfx = 2 ^ 31 ->
  strlen m + 16 + 2 ^ 31 <= C.SIZE_MAX ->
  strlen pfx mod 8 = 0 /\
  exists env,
    ln_ae_lock E k n m (Some pfx) = Return [LString env] /\
    ln_ae_unlock E k n env (Some (strlen pfx)) = Undefined.
Proof.
  intros HW Hk Hn Hp Hfit.
  split; [rewrite Hp; reflexivity |].
  exists (pfx ++ crypto_ae_lock E k n m); split.
  - apply ln_ae_lock_layout; simpl; rewrite ?Hp; try assumption.
    reflexivity.
  - apply ln_ae_unlock_out_of_bounds; try assumption.
    left; simpl; rewrite Hp; reflexivity.
Qed.

(** An envelope of [2^32 + 16] bytes at offset [2^32]: the [int] offset
    is 0 and the whole envelope is the box. *)
Lemma tag_verification_at_2_32 (k n c : bytes) :
  strlen c = 16 + 2 ^ 32 ->
  tag_verification E k n c (Some (2 ^ 32))
  = Some (crypto_ae_unlock E k n c).
Proof.
  intros Hc.
  rewrite (tag_verification_in_bounds E k n c (Some (2 ^ 32)) 0 eq_refl);
    rewrite ?Hc; try (vm_compute; discriminate).
  reflexivity.
Qed.

Lemma unlock_at_2_32_accepted (k n c out : bytes) :
  strlen k = 32 -> strlen n = 24 ->
  strlen c = 16 + 2 ^ 32 -> strlen out = 2 ^ 32 ->
  crypto_ae_unlock E k n c = (0, out) ->
  2 ^ 32 = strlen c - 16 /\
  tag_verification_succeeds E k n c (Some (2 ^ 32)) /\
  ln_ae_unlock E k n c (Some (2 ^ 32)) = Return [LString out] /\
  Return [LString out] <> Return [LString []].
Proof.
  intros Hk Hn Hc Hout Hcall.
  assert (HT : tag_verification E k n c (Some (2 ^ 32)) = Some (0, out))
    by (rewrite tag_verification_at_2_32, Hcall by assumption; reflexivity).
  split; [rewrite Hc; reflexivity |].
  split; [exists out; exact HT |].
  split.
  - apply ln_ae_unlock_accepted; try assumption.
    rewrite Hout, Hc; reflexivity.
  - intros H; injection H as H.
    apply (f_equal strlen) in H; rewrite Hout in H; discriminate.
Qed.

Lemma unlock_at_2_32_rejected (k n c out : bytes) (r : Z) :
  ae_unlock_writes E ->
  strlen k = 32 -> strlen n = 24 ->
  strlen c = 16 + 2 ^ 32 ->
  crypto_ae_unlock E k n c = (r, out) -> r <> 0 ->
  ln_ae_unlock E k n c (Some (2 ^ 32))
  = Return [LNil; lua_literal "unlock error"].
Proof.
  intros HW Hk Hn Hc Hcall Hr.
  apply (ln_ae_unlock_rejected E k n c (Some (2 ^ 32)) r out);
    try assumption.
  rewrite tag_verification_at_2_32, Hcall by assumption; reflexivity.
Qed.

End BeyondIntMax.

Lemma strlen_tamper (c : bytes) :
  1 <= strlen c -> strlen (Toy.tamper c) = strlen c.
Proof.
  destruct c as [| b r]; unfold strlen, Toy.tamper; simpl; lia.
Qed.

Lemma skipn_tamper (c : bytes) (z : Z) :
  1 <= z -> skipn (Z.to_nat z) (Toy.tamper c) = skipn (Z.to_nat z) c.
Proof.
  intros Hz.
  replace (Z.to_nat z) with (S (Z.to_nat (z - 1))) by lia.
  destruct c as [| b r]; unfold Toy.tamper; simpl tl;
    rewrite ?skipn_cons, ?skipn_nil; reflexivity.
Qed.

Lemma strlen_big_prefix : strlen big_prefix = 2 ^ 31.
Proof. apply ToyFacts.strlen_zeros; discriminate. Qed.

Lemma strlen_big_message : strlen big_message = 2 ^ 32.
Proof. apply ToyFacts.strlen_zeros; discriminate. Qed.

Lemma strlen_big_box : strlen big_box = 16 + 2 ^ 32.
Proof.
  rewrite (ToyFacts.lock_writes Toy.key Toy.nonce big_message).
  rewrite strlen_big_message; reflexivity.
Qed.

(** C1 - The round trip of [Lock] and [Unlock] breaks at a prefix of
    [2^31] bytes, whose length is a multiple of 8: the offset does not fit
    the [int] of [ln_ae_unlock], which reads before the envelope and does
    not return the plaintext. *)
Lemma roundtrip_breaks_beyond_int_max :
  strlen Toy.key = 32 /\ strlen Toy.nonce = 24 /\
  strlen big_prefix mod 8 = 0 /\
  exists env,
    ln_ae_lock Toy.externals Toy.key Toy.nonce Toy.hello (Some big_prefix)
    = Return [LString env] /\
    ln_ae_unlock Toy.externals Toy.key Toy.nonce env
      (Some (strlen big_prefix)) <> Return [LString Toy.hello].
Proof.
  destruct (unlock_after_prefix_of_2_31 Toy.externals Toy.key Toy.nonce
              Toy.hello big_prefix ToyFacts.lock_writes eq_refl eq_refl
              strlen_big_prefix)
    as (H8 & env & HL & HU); [vm_compute; discriminate |].
  split; [reflexivity | split; [reflexivity | split; [exact H8 |]]].
  exists env; split; [exact HL |].
  rewrite HU; discriminate.
Qed.

(** The same narrowing at an envelope of [2^32 + 16] bytes and the
    argument [2^32]: the [int] offset is 0, the computed length is [2^32]
    and not 0, the tag of the whole envelope is verified and [2^32] bytes
    are returned.  The 16 bytes at position [2^32] are a box of the empty
    message as well. *)
Lemma zero_length_at_offset_beyond_int_max :
  strlen Toy.key = 32 /\ strlen Toy.nonce = 24 /\
  2 ^ 32 = strlen big_box - 16 /\
  tag_verification_succeeds Toy.externals Toy.key Toy.nonce big_box
    (Some (2 ^ 32)) /\
  crypto_ae_unlock Toy.externals Toy.key Toy.nonce
    (skipn (Z.to_nat (2 ^ 32)) big_box) = (0, []) /\
  ln_ae_unlock Toy.externals Toy.key Toy.nonce big_box (Some (2 ^ 32))
  <> Return [LString []].
Proof.
  destruct (unlock_at_2_32_accepted Toy.externals Toy.key Toy.nonce
              big_box big_message eq_refl eq_refl
              strlen_big_box strlen_big_message
              (ToyFacts.roundtrip Toy.key Toy.nonce big_message
                 eq_refl eq_refl))
    as (H1 & H2 & H3 & H4).
  split; [reflexivity | split; [reflexivity |]].
  split; [exact H1 | split; [exact H2 | split]].
  - rewrite (ToyFacts.box_of_zeros_tail (2 ^ 32)) by discriminate.
    reflexivity.
  - rewrite H3; exact H4.
Qed.

(** C8 - [Unlock] reads bytes before the offset when the offset does not
    fit its [int]: two envelopes of [2^32 + 16] bytes that differ in their
    first byte only agree on all positions from the offset [2^32] on; it
    is a valid offset, and [Unlock] accepts one envelope and rejects the
    other. *)
Lemma unlock_reads_before_offset_beyond_int_max :
  strlen Toy.key = 32 /\ strlen Toy.nonce = 24 /\
  0 <= 2 ^ 32 /\ 2 ^ 32 + 16 <= strlen big_box /\
  strlen big_box = strlen (Toy.tamper big_box) /\
  skipn (Z.to_nat (2 ^ 32)) big_box
  = skipn (Z.to_nat (2 ^ 32)) (Toy.tamper big_box) /\
  ln_ae_unlock Toy.externals Toy.key Toy.nonce big_box (Some (2 ^ 32))
  <> ln_ae_unlock Toy.externals Toy.key Toy.nonce (Toy.tamper big_box)
       (Some (2 ^ 32)).
Proof.
  pose proof strlen_big_box as Hlen.
  pose proof (strlen_tamper big_box) as Hlen'.
  rewrite Hlen in Hlen'; specialize (Hlen' ltac:(discriminate)).
  destruct (unlock_at_2_32_accepted Toy.externals Toy.key Toy.nonce
              big_box big_message eq_refl eq_refl
              strlen_big_box strlen_big_message
              (ToyFacts.roundtrip Toy.key Toy.nonce big_message
                 eq_refl eq_refl))
    as (_ & _ & H1 & _).
  pose proof (unlock_at_2_32_rejected Toy.externals Toy.key Toy.nonce
                (Toy.tamper big_box) [] (-1) ToyFacts.unlock_writes
                eq_refl eq_refl Hlen'
                (ToyFacts.tampered_tag_rejected Toy.key Toy.nonce big_message)
                ltac:(discriminate)) as H2.
  split; [reflexivity | split; [reflexivity | split; [discriminate |]]].
  split; [rewrite Hlen; discriminate |].
  split; [rewrite Hlen, Hlen'; reflexivity |].
  split; [symmetry; apply skipn_tamper; discriminate |].
  rewrite H1, H2; discriminate.
Qed.

(* ================================================================= *)
(** * Further properties of the binding *)

(** ** Errors of ae_lock and ae_unlock *)

(** X1 - [ae_lock] raises an error for three reasons only, tested in this
    order: the nonce is not 24 bytes long, the key is not 32 bytes long,
    the length of the prefix is not a multiple of 8; the message names the
    first one that applies. *)
Theorem ln_ae_lock_error_iff (E : Externals) (k n m : bytes)
    (pfx_arg : option bytes) (msg : string) :
  ln_ae_lock E k n m pfx_arg = Error msg <->
  (strlen n <> 24 /\ msg = "bad nonce size") \/
  (strlen n = 24 /\ strlen k <> 32 /\ msg = "bad key size") \/
  (strlen n = 24 /\ strlen k = 32 /\
   strlen (luaL_optlstring pfx_arg []) mod 8 <> 0 /\
   msg = "bad prefix size").
Proof.
  unfold ln_ae_lock.
  destruct (Z.eqb_spec (strlen n) 24) as [Hn | Hn]; simpl negb; cbv iota.
  2: { split; [intros [= <-]; left; split; [assumption | reflexivity] |].
       intros [[_ ->] | [[H _] | [H _]]]; [reflexivity | lia ..]. }
  destruct (Z.eqb_spec (strlen k) 32) as [Hk | Hk]; simpl negb; cbv iota.
  2: { split; [intros [= <-]; right; left; repeat split; assumption |].
       intros [[H _] | [(_ & _ & ->) | (_ & H & _)]];
         [lia | reflexivity | lia]. }
  destruct (Z.eqb_spec (strlen (luaL_optlstring pfx_arg []) mod 8) 0)
    as [Hp | Hp]; simpl negb; cbv iota.
  2: { split; [intros [= <-]; right; right; repeat split; assumption |].
       intros [[H _] | [(_ & H & _) | (_ & _ & _ & ->)]];
         [lia | lia | reflexivity]. }
  split.
  - intros H.
    destruct (store _ _ _); [| discriminate].
    destruct (if 0 <? _ then _ else _); [| discriminate].
    destruct (load _ _ _); discriminate.
  - intros [[H _] | [(_ & H & _) | (_ & _ & H & _)]]; lia.
Qed.

(** X2 - [ae_unlock] raises an error for two reasons only, a nonce that is
    not 24 bytes long and, after that, a key that is not 32 bytes long: no
    envelope and no offset is ever reported as an error. *)
Theorem ln_ae_unlock_error_iff (E : Externals) (k n c : bytes)
    (i_arg : option Z) (msg : string) :
  ln_ae_unlock E k n c i_arg = Error msg <->
  (strlen n <> 24 /\ msg = "bad nonce size") \/
  (strlen n = 24 /\ strlen k <> 32 /\ msg = "bad key size").
Proof.
  unfold ln_ae_unlock.
  destruct (Z.eqb_spec (strlen n) 24) as [Hn | Hn]; simpl negb; cbv iota.
  2: { split; [intros [= <-]; left; split; [assumption | reflexivity] |].
       intros [[_ ->] | [H _]]; [reflexivity | lia]. }
  destruct (Z.eqb_spec (strlen k) 32) as [Hk | Hk]; simpl negb; cbv iota.
  2: { split; [intros [= <-]; right; repeat split; assumption |].
       intros [[H _] | (_ & _ & ->)]; [lia | reflexivity]. }
  split.
  - intros H.
    destruct (load c _ _) as [box |]; [| discriminate].
    destruct (crypto_ae_unlock E k n box) as [r out].
    destruct (store _ 0 out); [| discriminate].
    destruct (negb (r =? 0)); [discriminate |].
    destruct (load _ 0 _); discriminate.
  - intros [[H _] | (_ & H & _)]; lia.
Qed.

(** ** The envelopes and offsets that ae_unlock can take *)

Section UnlockDomain.

Context (E : Externals).

(** In range, the call of the primitive returns to [ln_ae_unlock]. *)
Lemma ln_ae_unlock_in_bounds (k n c : bytes) (i_arg : option Z) (i : Z) :
  ae_unlock_writes E ->
  strlen n = 24 -> strlen k = 32 -> strlen c <= C.SIZE_MAX ->
  i = C.to_int (luaL_optinteger i_arg 0) ->
  0 <= i -> i + 16 <= strlen c ->
  ln_ae_unlock E k n c i_arg =
  (if fst (crypto_ae_unlock E k n (skipn (Z.to_nat i) c)) =? 0
   then Return [LString (snd (crypto_ae_unlock E k n
                                (skipn (Z.to_nat i) c)))]
   else Return [LNil; lua_literal "unlock error"]) /\
  (fst (crypto_ae_unlock E k n (skipn (Z.to_nat i) c)) = 0 ->
   strlen (snd (crypto_ae_unlock E k n (skipn (Z.to_nat i) c)))
   = strlen c - i - 16).
Proof.
  intros HW Hn Hk Hfit Hi H0 H16.
  pose proof (tag_verification_in_bounds E k n c i_arg i Hi H0 H16 Hfit)
    as HT.
  assert (Htail : strlen (skipn (Z.to_nat i) c) = strlen c - i)
    by (unfold strlen; rewrite length_skipn; unfold strlen in *; lia).
  destruct (HW k n (skipn (Z.to_nat i) c)) as [_ Hexact]; [lia |].
  destruct (crypto_ae_unlock E k n (skipn (Z.to_nat i) c)) as [r out] eqn:Hc.
  cbn [fst snd] in *.
  split; [| intros Hr; rewrite Hexact by assumption; lia].
  destruct (Z.eqb_spec r 0) as [-> | Hr].
  - apply ln_ae_unlock_accepted; try assumption.
    rewrite <- Hi, to_size_t_small by lia.
    rewrite Hexact by reflexivity; lia.
  - apply (ln_ae_unlock_rejected E k n c i_arg r out); assumption.
Qed.

End UnlockDomain.

(** X3 - With a key and a nonce of the right sizes, [ae_unlock] accesses
    memory outside the envelope exactly when the offset, as an [int], is
    negative or leaves fewer than 16 bytes of envelope after it. *)
Theorem ln_ae_unlock_undefined_iff (E : Externals) (k n c : bytes)
    (i_arg : option Z) :
  ae_unlock_writes E ->
  strlen n = 24 -> strlen k = 32 -> strlen c <= C.SIZE_MAX ->
  (ln_ae_unlock E k n c i_arg = Undefined <->
   C.to_int (luaL_optinteger i_arg 0) < 0 \/
   strlen c < C.to_int (luaL_optinteger i_arg 0) + 16).
Proof.
  intros HW Hn Hk Hfit; split.
  - intros HU.
    destruct (Z.lt_ge_cases (C.to_int (luaL_optinteger i_arg 0)) 0)
      as [Hneg | H0]; [left; assumption |].
    destruct (Z.lt_ge_cases (strlen c)
                (C.to_int (luaL_optinteger i_arg 0) + 16))
      as [Hshort | H16]; [right; assumption |].
    destruct (ln_ae_unlock_in_bounds E k n c i_arg _ HW Hn Hk Hfit eq_refl
                H0 H16) as [Hrun _].
    rewrite Hrun in HU.
    destruct (fst _ =? 0); discriminate.
  - intros H; apply ln_ae_unlock_out_of_bounds; try assumption.
    destruct H; [left; assumption | right; lia].
Qed.

(** X4 - With a key and a nonce of the right sizes and an offset from 0 to
    [INT_MAX] that leaves at least 16 bytes, [ae_unlock] is the primitive
    run on the bytes of the envelope from the offset on: its output when
    the status is 0, [nil] and the message otherwise; a returned plaintext
    has [len(envelope) - offset - 16] bytes. *)
Theorem ln_ae_unlock_in_range (E : Externals) (k n c : bytes) (off : Z) :
  ae_unlock_writes E ->
  strlen n = 24 -> strlen k = 32 -> strlen c <= C.SIZE_MAX ->
  0 <= off <= C.INT_MAX -> off + 16 <= strlen c ->
  ln_ae_unlock E k n c (Some off) =
  (if fst (crypto_ae_unlock E k n (skipn (Z.to_nat off) c)) =? 0
   then Return [LString (snd (crypto_ae_unlock E k n
                                (skipn (Z.to_nat off) c)))]
   else Return [LNil; lua_literal "unlock error"]) /\
  (forall s,
      ln_ae_unlock E k n c (Some off) = Return [LString s] ->
      strlen s = strlen c - off - 16).
Proof.
  intros HW Hn Hk Hfit Hoff H16.
  assert (Hi : off = C.to_int (luaL_optinteger (Some off) 0)).
  { simpl; symmetry; apply to_int_small; unfold C.INT_MIN; simpl; lia. }
  destruct (ln_ae_unlock_in_bounds E k n c (Some off) off HW Hn Hk Hfit Hi
              ltac:(lia) H16) as [Hrun Hlen].
  split; [exact Hrun |].
  intros s Hs; rewrite Hrun in Hs.
  destruct (Z.eqb_spec (fst (crypto_ae_unlock E k n
                               (skipn (Z.to_nat off) c))) 0)
    as [Hr | Hr]; [| discriminate].
  injection Hs as <-; apply Hlen, Hr.
Qed.

(** ** Prefixes and offsets *)

Lemma load_shift (p c : bytes) (off len : Z) :
  0 <= off ->
  load (p ++ c) (strlen p + off) len = load c off len.
Proof.
  intros H0; pose proof (strlen_nonneg p) as Hp.
  unfold load; rewrite strlen_app.
  replace (0 <=? strlen p + off) with (0 <=? off)
    by (destruct (Z.leb_spec 0 off), (Z.leb_spec 0 (strlen p + off));
        reflexivity || lia).
  replace (strlen p + off + len <=? strlen p + strlen c)
    with (off + len <=? strlen c)
    by (destruct (Z.leb_spec (off + len) (strlen c)),
          (Z.leb_spec (strlen p + off + len) (strlen p + strlen c));
        reflexivity || lia).
  replace (Z.to_nat (strlen p + off))
    with (List.length p + Z.to_nat off)%nat by (unfold strlen; lia).
  rewrite skipn_app, skipn_all2 by lia.
  replace (List.length p + Z.to_nat off - List.length p)%nat
    with (Z.to_nat off) by lia.
  reflexivity.
Qed.

Lemma to_int_periodic (z q : Z) : C.to_int (z + q * 2 ^ 32) = C.to_int z.
Proof.
  unfold C.to_int, C.INT_BITS.
  replace (z + q * 2 ^ 32 + 2 ^ (32 - 1))
    with (z + 2 ^ (32 - 1) + q * 2 ^ 32) by ring.
  rewrite Z.mod_add by discriminate; reflexivity.
Qed.

(** X5 - Bytes put in front of an envelope do not change what [ae_unlock]
    returns when the offset is moved by their number: for an offset that
    is not negative and stays within [INT_MAX],
    [ae_unlock(k, n, p .. c, len(p) + i) = ae_unlock(k, n, c, i)]. *)
Theorem ln_ae_unlock_shift (E : Externals) (k n p c : bytes) (off : Z) :
  ae_unlock_writes E ->
  0 <= off -> strlen p + off <= C.INT_MAX ->
  ln_ae_unlock E k n (p ++ c) (Some (strlen p + off))
  = ln_ae_unlock E k n c (Some off).
Proof.
  intros HW H0 Hmax.
  pose proof (strlen_nonneg p) as Hp.
  pose proof (strlen_nonneg c) as Hc.
  assert (Hi1 : C.to_int (luaL_optinteger (Some (strlen p + off)) 0)
                = strlen p + off).
  { simpl; apply to_int_small; unfold C.INT_MIN; simpl; lia. }
  assert (Hi2 : C.to_int (luaL_optinteger (Some off) 0) = off).
  { simpl; apply to_int_small; unfold C.INT_MIN; simpl; lia. }
  unfold ln_ae_unlock; rewrite Hi1, Hi2, strlen_app.
  destruct (negb (strlen n =? 24)); [reflexivity |].
  destruct (negb (strlen k =? 32)); [reflexivity |].
  replace (strlen p + strlen c - (strlen p + off) - 16)
    with (strlen c - off - 16) by lia.
  set (mln := C.to_size_t (strlen c - off - 16)).
  assert (Hm : 0 <= mln) by (apply Z.mod_pos_bound; reflexivity).
  rewrite load_shift by assumption.
  destruct (load c off (16 + mln)) as [box |] eqn:L; [| reflexivity].
  apply load_bounds in L as (_ & _ & Hin & Hbox).
  assert (Hbl : strlen box = 16 + mln).
  { subst box; apply strlen_firstn.
    unfold strlen in *; rewrite length_skipn; lia. }
  destruct (HW k n box) as [Hout Hexact]; [lia |].
  destruct (crypto_ae_unlock E k n box) as [r out]; cbn [fst snd] in *.
  rewrite !store_head by (rewrite strlen_malloc; lia).
  destruct (Z.eqb_spec r 0) as [-> | Hr]; simpl negb; cbv iota;
    [| reflexivity].
  replace mln with (strlen out) by (rewrite Hexact by reflexivity; lia).
  rewrite !load_head; reflexivity.
Qed.

(** X6 - A prefix is copied in front of the envelope and changes nothing
    behind it: with a prefix [p1 .. p2], both parts of a length that is a
    multiple of 8, [ae_lock] returns [p1] followed by the envelope that it
    returns with the prefix [p2]. *)
Theorem ln_ae_lock_prefix_app (E : Externals) (k n m p1 p2 : bytes) :
  ae_lock_writes E ->
  strlen n = 24 -> strlen k = 32 ->
  strlen p1 mod 8 = 0 -> strlen p2 mod 8 = 0 ->
  strlen p1 + strlen p2 + strlen m + 16 <= C.SIZE_MAX ->
  exists env,
    ln_ae_lock E k n m (Some p2) = Return [LString env] /\
    ln_ae_lock E k n m (Some (p1 ++ p2)) = Return [LString (p1 ++ env)].
Proof.
  intros HW Hn Hk H1 H2 Hfit.
  pose proof (strlen_nonneg p1) as Hp1.
  exists (p2 ++ crypto_ae_lock E k n m); split.
  - apply ln_ae_lock_layout; simpl; try assumption; lia.
  - rewrite app_assoc.
    apply ln_ae_lock_layout; simpl; try assumption.
    + rewrite strlen_app, Z.add_mod, H1, H2 by discriminate; reflexivity.
    + rewrite strlen_app; lia.
Qed.

(** The box of a message, behind any bytes [q], unlocks at [len(q)]. *)
Lemma unlock_box_behind (E : Externals) (k n m q : bytes) :
  ae_lock_writes E -> ae_roundtrip E ->
  strlen n = 24 -> strlen k = 32 ->
  strlen q + strlen m + 16 <= C.SIZE_MAX ->
  strlen q <= C.INT_MAX ->
  ln_ae_unlock E k n (q ++ crypto_ae_lock E k n m) (Some (strlen q))
  = Return [LString m].
Proof.
  intros HW HR Hn Hk Hfitq Hint.
  pose proof (strlen_nonneg q) as Hq.
  pose proof (strlen_nonneg m) as Hm.
  pose proof (HW k n m) as Hbox.
  assert (Hi : C.to_int (luaL_optinteger (Some (strlen q)) 0) = strlen q).
  { simpl; apply to_int_small; unfold C.INT_MIN; simpl; lia. }
  apply ln_ae_unlock_accepted; try assumption.
  - rewrite (tag_verification_in_bounds E k n _ _ (strlen q));
      rewrite ?Hi, ?strlen_app; try lia.
    rewrite skipn_strlen_app, HR by assumption; reflexivity.
  - rewrite Hi, strlen_app, to_size_t_small; lia.
Qed.

(** X7 - The prefix is not authenticated and [ae_unlock] does not ask for
    a multiple of 8: the box of an envelope made by [ae_lock], behind any
    other bytes [q] in place of the prefix, unlocks to the plaintext at
    the offset [len(q)]. *)
Theorem prefix_not_authenticated (E : Externals) (k n m pfx q : bytes) :
  ae_lock_writes E -> ae_roundtrip E ->
  strlen n = 24 -> strlen k = 32 -> strlen pfx mod 8 = 0 ->
  strlen pfx + strlen m + 16 <= C.SIZE_MAX ->
  strlen q + strlen m + 16 <= C.SIZE_MAX ->
  strlen q <= C.INT_MAX ->
  exists env,
    ln_ae_lock E k n m (Some pfx) = Return [LString env] /\
    ln_ae_unlock E k n (q ++ skipn (Z.to_nat (strlen pfx)) env)
      (Some (strlen q))
    = Return [LString m].
Proof.
  intros HW HR Hn Hk H8 Hfit Hfitq Hint.
  exists (pfx ++ crypto_ae_lock E k n m); split.
  - apply ln_ae_lock_layout; simpl; try assumption; lia.
  - rewrite skipn_strlen_app.
    apply unlock_box_behind; assumption.
Qed.

(** X8 - [ae_unlock] takes its offset modulo [2^32]: offsets that differ
    by a multiple of [2^32] give the same result on every envelope. *)
Theorem ln_ae_unlock_offset_mod (E : Externals) (k n c : bytes)
    (off q : Z) :
  ln_ae_unlock E k n c (Some (off + q * 2 ^ 32))
  = ln_ae_unlock E k n c (Some off).
Proof.
  unfold ln_ae_unlock, luaL_optinteger.
  rewrite to_int_periodic; reflexivity.
Qed.

(** ** The key-exchange functions *)

(** X9 - [x25519_public_key] raises ["bad sk size"] for every secret key
    that is not 32 bytes long, and for a 32-byte secret key returns the 32
    bytes that the primitive wrote. *)
Theorem ln_x25519_public_key_outcome (E : Externals) (sk : bytes) :
  x25519_public_key_writes E ->
  (strlen sk <> 32 -> ln_x25519_public_key E sk = Error "bad sk size") /\
  (strlen sk = 32 ->
   ln_x25519_public_key E sk
   = Return [LString (crypto_x25519_public_key E sk)] /\
   strlen (crypto_x25519_public_key E sk) = 32).
Proof.
  intros HW; split.
  - intros H; unfold ln_x25519_public_key.
    apply Z.eqb_neq in H; rewrite H; reflexivity.
  - intros H; split; [apply ln_x25519_public_key_run; assumption | apply HW].
Qed.

(** X10 - [x25519_keypair] draws 32 bytes from the random source once and
    returns two 32-byte strings: the public key first, then the secret key,
    which is the bytes drawn; [x25519_public_key] of the second value is
    the first value. *)
Theorem ln_x25519_keypair_pair (E : Externals) (g : rng E) :
  randombytes_fills E -> x25519_public_key_writes E ->
  exists pk sk g',
    ln_x25519_keypair E g = (Return [LString pk; LString sk], g') /\
    randombytes E g 32 = (sk, g') /\
    strlen pk = 32 /\ strlen sk = 32 /\
    ln_x25519_public_key E sk = Return [LString pk].
Proof.
  intros HR HW.
  pose proof (HR g 32 ltac:(lia)) as Hsk.
  exists (crypto_x25519_public_key E (fst (randombytes E g 32))),
    (fst (randombytes E g 32)), (snd (randombytes E g 32)).
  split; [apply ln_x25519_keypair_run; assumption |].
  split; [destruct (randombytes E g 32); reflexivity |].
  split; [apply HW | split; [exact Hsk |]].
  apply ln_x25519_public_key_run; assumption.
Qed.

(** X11 - [lock_key] raises an error for two reasons only, tested in this
    order: the public key is not 32 bytes long, the secret key is not 32
    bytes long. *)
Theorem ln_lock_key_error_iff (E : Externals) (sk pk : bytes)
    (msg : string) :
  ln_lock_key E sk pk = Error msg <->
  (strlen pk <> 32 /\ msg = "bad pk size") \/
  (strlen pk = 32 /\ strlen sk <> 32 /\ msg = "bad sk size").
Proof.
  unfold ln_lock_key.
  destruct (Z.eqb_spec (strlen pk) 32) as [Hp | Hp]; simpl negb; cbv iota.
  2: { split; [intros [= <-]; left; split; [assumption | reflexivity] |].
       intros [[_ ->] | [H _]]; [reflexivity | lia]. }
  destruct (Z.eqb_spec (strlen sk) 32) as [Hs | Hs]; simpl negb; cbv iota.
  2: { split; [intros [= <-]; right; repeat split; assumption |].
       intros [[H _] | (_ & _ & ->)]; [lia | reflexivity]. }
  split.
  - intros H.
    destruct (crypto_lock_key E sk pk) as [r out].
    destruct (store _ 0 out); [| discriminate].
    destruct (load _ 0 32); discriminate.
  - intros [[H _] | (_ & H & _)]; lia.
Qed.

(** X12 - The keys that [x25519_keypair] returns are accepted by
    [lock_key]: the secret key of one pair and the public key of another
    give a 32-byte session key, never an error. *)
Theorem keypair_keys_accepted (E : Externals) (g1 g2 : rng E)
    (pk1 sk1 pk2 sk2 : bytes) (g1' g2' : rng E) :
  randombytes_fills E -> x25519_public_key_writes E -> lock_key_writes E ->
  ln_x25519_keypair E g1 = (Return [LString pk1; LString sk1], g1') ->
  ln_x25519_keypair E g2 = (Return [LString pk2; LString sk2], g2') ->
  exists key,
    ln_lock_key E sk1 pk2 = Return [LString key] /\ strlen key = 32.
Proof.
  intros HR HW HK H1 H2.
  rewrite ln_x25519_keypair_run in H1, H2 by assumption.
  injection H1 as _ Hsk1 _; injection H2 as Hpk2 _ _.
  exists (snd (crypto_lock_key E sk1 pk2)); split; [| apply HK].
  apply ln_lock_key_run; [assumption | |].
  - rewrite <- Hsk1; apply HR; lia.
  - rewrite <- Hpk2; apply HW.
Qed.

(** ** randombytes *)

Lemma ln_randombytes_run (E : Externals) (li : Z) (g : rng E) :
  randombytes_fills E ->
  0 <= li <= 2 ^ 63 - 1 ->
  ln_randombytes E true li g
  = (Return [LString (fst (randombytes E g li))], snd (randombytes E g li)).
Proof.
  intros HR Hli.
  pose proof (HR g li ltac:(lia)) as Hlen.
  unfold ln_randombytes, to_unsigned_long_long.
  rewrite to_size_t_small by (unfold C.SIZE_MAX, C.SIZE_BITS; lia).
  rewrite Z.mod_small by lia.
  destruct (randombytes E g li) as [rnd g']; cbn [fst snd] in *.
  rewrite store_over by (rewrite strlen_malloc; lia).
  rewrite (load_whole rnd li Hlen); reflexivity.
Qed.

(** X13 - For a count from 0 to the largest [lua_Integer], and a buffer
    that was allocated, [randombytes(n)] returns the [n] bytes that the
    random source delivered (the empty string for 0) and leaves the source
    as that one draw left it. *)
Theorem ln_randombytes_count (E : Externals) (li : Z) (g : rng E) :
  randombytes_fills E ->
  0 <= li <= 2 ^ 63 - 1 ->
  ln_randombytes E true li g
  = (Return [LString (fst (randombytes E g li))], snd (randombytes E g li))
  /\ strlen (fst (randombytes E g li)) = li.
Proof.
  intros HR Hli; split.
  - apply ln_randombytes_run; assumption.
  - apply HR; lia.
Qed.

(** X15 - [randombytes] does not check the result of [malloc]: when the
    allocation fails, a count other than 0 makes the random source write
    through the null pointer, and a count of 0 returns the empty string. *)
Theorem ln_randombytes_null (E : Externals) (li : Z) (g : rng E) :
  randombytes_fills E ->
  (C.to_size_t li <> 0 -> fst (ln_randombytes E false li g) = Undefined) /\
  (C.to_size_t li = 0 ->
   fst (ln_randombytes E false li g) = Return [LString []]).
Proof.
  intros HR.
  assert (Hr : 0 <= C.to_size_t li) by (apply Z.mod_pos_bound; reflexivity).
  pose proof (HR g (C.to_size_t li) Hr) as Hlen.
  unfold ln_randombytes.
  change (to_unsigned_long_long li) with (C.to_size_t li).
  destruct (randombytes E g (C.to_size_t li)) as [rnd g'];
    cbn [fst snd] in *.
  split; intros H.
  - unfold store; change (strlen []) with 0.
    replace (0 + strlen rnd <=? 0) with false; [reflexivity |].
    symmetry; apply Z.leb_gt; lia.
  - rewrite H in *; rewrite (strlen_nil_inv rnd Hlen); reflexivity.
Qed.

(** ** The library table *)

Lemma luaopen_luanacha_table :
  luaopen_luanacha =
  [ ("VERSION", FString (list_byte_of_string "luanacha-0.1"));
    ("lock_key", FFunction Ln_lock_key);
    ("x25519_public_key", FFunction Ln_x25519_public_key);
    ("x25519_keypair", FFunction Ln_x25519_keypair);
    ("ae_unlock", FFunction Ln_ae_unlock);
    ("ae_lock", FFunction Ln_ae_lock);
    ("randombytes", FFunction Ln_randombytes) ].
Proof. reflexivity. Qed.

(** X16 - The table that [luaopen_luanacha] returns has seven fields and no
    other: the six functions of [luanachalib], each under its name, and
    [VERSION]; the blake2b and ed25519 functions that the head of the file
    lists as the API are not in it. *)
Theorem luaopen_luanacha_fields :
  (forall name,
      lua_getfield luaopen_luanacha name <> None <->
      In name [ "randombytes"; "ae_lock"; "ae_unlock"; "x25519_keypair";
                "x25519_public_key"; "lock_key"; "VERSION" ]) /\
  (forall name f,
      lua_getfield luaopen_luanacha name = Some (FFunction f) <->
      In (Some name, Some f) luanachalib) /\
  lua_getfield luaopen_luanacha "VERSION"
  = Some (FString (list_byte_of_string "luanacha-0.1")) /\
  filter (fun name =>
            match lua_getfield luaopen_luanacha name with
            | None => true
            | Some _ => false
            end) documented_api
  = [ "blake2b_init"; "blake2b_update"; "blake2b_final"; "blake2b";
      "ed25519_keypair"; "ed25519_public_key"; "ed25519_sign";
      "ed25519_check" ].
Proof.
  split; [| split; [| split; reflexivity]].
  - intros name; rewrite luaopen_luanacha_table; cbn [lua_getfield].
    repeat match goal with
           | |- context [String.eqb ?a name] =>
               destruct (String.eqb_spec a name) as [<- | ?]
           end;
      try (split; [intros _; simpl; tauto | discriminate]).
    split; [congruence |].
    simpl; intuition congruence.
  - intros name f; rewrite luaopen_luanacha_table; cbn [lua_getfield].
    unfold luanachalib.
    repeat match goal with
           | |- context [String.eqb ?a name] =>
               destruct (String.eqb_spec a name) as [<- | ?]
           end;
      try (split;
           [ intros [= <-]; simpl; tauto
           | simpl; intuition congruence ]).
    all: split; [discriminate |].
    all: simpl; intuition congruence.
Qed.

(** ** The functions together *)

(** X17 - A key drawn with [randombytes(32)] and a nonce drawn with
    [randombytes(24)] are accepted by [ae_lock], and [ae_unlock] with the
    same key and nonce, both called without prefix and offset, returns the
    message. *)
Theorem drawn_key_and_nonce_roundtrip (E : Externals) (g : rng E)
    (m : bytes) :
  randombytes_fills E -> ae_lock_writes E -> ae_roundtrip E ->
  strlen m + 16 <= C.SIZE_MAX ->
  exists k n g1 g2 env,
    ln_randombytes E true 32 g = (Return [LString k], g1) /\
    ln_randombytes E true 24 g1 = (Return [LString n], g2) /\
    ln_ae_lock E k n m None = Return [LString env] /\
    ln_ae_unlock E k n env None = Return [LString m].
Proof.
  intros HR HW HRt Hfit.
  exists (fst (randombytes E g 32)), (fst (randombytes E (snd (randombytes E g 32)) 24)),
    (snd (randombytes E g 32)),
    (snd (randombytes E (snd (randombytes E g 32)) 24)),
    (crypto_ae_lock E (fst (randombytes E g 32))
       (fst (randombytes E (snd (randombytes E g 32)) 24)) m).
  pose proof (HR g 32 ltac:(lia)) as Hk.
  pose proof (HR (snd (randombytes E g 32)) 24 ltac:(lia)) as Hn.
  split; [apply ln_randombytes_run; [assumption | lia] |].
  split; [apply ln_randombytes_run; [assumption | lia] |].
  split.
  - apply (ln_ae_lock_layout E _ _ m None HW Hn Hk); [reflexivity |].
    simpl; change (strlen []) with 0; lia.
  - rewrite ln_ae_unlock_no_offset.
    apply (unlock_box_behind E _ _ m [] HW HRt Hn Hk).
    + change (strlen []) with 0; lia.
    + discriminate.
Qed.

(** X18 - Two parties that each call [x25519_keypair], read the pair as
    (public key, secret key), and call [lock_key] with the own secret key
    and the public key of the other get the same session key; what one
    locks with it under a 24-byte nonce, the other unlocks. *)
Theorem key_exchange_session (E : Externals) (gA gB : rng E)
    (n m : bytes) :
  randombytes_fills E -> x25519_public_key_writes E ->
  lock_key_writes E -> lock_key_symmetric E ->
  ae_lock_writes E -> ae_roundtrip E ->
  strlen n = 24 -> strlen m + 16 <= C.SIZE_MAX ->
  exists pkA skA gA' pkB skB gB' key env,
    ln_x25519_keypair E gA = (Return [LString pkA; LString skA], gA') /\
    ln_x25519_keypair E gB = (Return [LString pkB; LString skB], gB') /\
    ln_lock_key E skA pkB = Return [LString key] /\
    ln_lock_key E skB pkA = Return [LString key] /\
    ln_ae_lock E key n m None = Return [LString env] /\
    ln_ae_unlock E key n env None = Return [LString m].
Proof.
  intros HR HWp HWk HS HW HRt Hn Hfit.
  set (skA := fst (randombytes E gA 32)).
  set (skB := fst (randombytes E gB 32)).
  assert (HskA : strlen skA = 32) by (apply HR; lia).
  assert (HskB : strlen skB = 32) by (apply HR; lia).
  set (key := snd (crypto_lock_key E skA (crypto_x25519_public_key E skB))).
  assert (Hkey : strlen key = 32) by apply HWk.
  exists (crypto_x25519_public_key E skA), skA, (snd (randombytes E gA 32)),
    (crypto_x25519_public_key E skB), skB, (snd (randombytes E gB 32)),
    key, (crypto_ae_lock E key n m).
  split; [apply ln_x25519_keypair_run; assumption |].
  split; [apply ln_x25519_keypair_run; assumption |].
  split; [apply ln_lock_key_run; [assumption | assumption | apply HWp] |].
  split.
  { rewrite ln_lock_key_run by (try assumption; apply HWp).
    unfold key; rewrite (HS skA skB HskA HskB); reflexivity. }
  split.
  - apply (ln_ae_lock_layout E key n m None HW Hn Hkey); [reflexivity |].
    simpl; change (strlen []) with 0; lia.
  - rewrite ln_ae_unlock_no_offset.
    apply (unlock_box_behind E key n m [] HW HRt Hn Hkey).
    + change (strlen []) with 0; lia.
    + discriminate.
Qed.

(** X19 - With a key and a nonce of the right sizes, every offset from
    [2^31] to [2^32 - 1] is a negative [int]: [ae_unlock] reads before the
    envelope, however long the envelope is. *)
Theorem ln_ae_unlock_offset_beyond_int_max (E : Externals) (k n c : bytes)
    (off : Z) :
  strlen n = 24 -> strlen k = 32 ->
  2 ^ 31 <= off < 2 ^ 32 ->
  ln_ae_unlock E k n c (Some off) = Undefined.
Proof.
  intros Hn Hk Hoff.
  apply ln_ae_unlock_out_of_bounds; try assumption.
  left; simpl luaL_optinteger.
  replace off with (off - 2 ^ 32 + 1 * 2 ^ 32) by ring.
  rewrite to_int_periodic, to_int_small;
    unfold C.INT_MIN, C.INT_MAX, C.INT_BITS; simpl; lia.
Qed.

(** ** The further properties on concrete inputs *)

Lemma toy_public_key_writes : x25519_public_key_writes Toy.externals.
Proof.
  exact (spec_public_key_writes Toy.group ToyFacts.group_laws Toy.externals
           ToyFacts.as_specified).
Qed.

Lemma toy_lock_key_writes : lock_key_writes Toy.externals.
Proof.
  exact (spec_lock_key_writes Toy.group ToyFacts.group_laws Toy.externals
           ToyFacts.as_specified).
Qed.

Lemma toy_lock_key_symmetric : lock_key_symmetric Toy.externals.
Proof.
  intros skA skB _ _.
  change (crypto_lock_key Toy.externals) with (spec_lock_key Toy.group).
  change (crypto_x25519_public_key Toy.externals)
    with (spec_x25519_public_key Toy.group).
  rewrite (spec_lock_key_symmetric Toy.group ToyFacts.group_laws skA skB).
  reflexivity.
Qed.

Lemma ln_ae_unlock_undefined_iff_witness :
  ln_ae_unlock Toy.externals Toy.key Toy.nonce (Toy.zeros 10) None
  = Undefined <->
  C.to_int (luaL_optinteger None 0) < 0 \/
  strlen (Toy.zeros 10) < C.to_int (luaL_optinteger None 0) + 16.
Proof.
  apply (ln_ae_unlock_undefined_iff Toy.externals Toy.key Toy.nonce
           (Toy.zeros 10) None ToyFacts.unlock_writes eq_refl eq_refl).
  vm_compute; discriminate.
Defined.

Lemma ln_ae_unlock_in_range_witness :
  ln_ae_unlock Toy.externals Toy.key Toy.nonce Toy.envelope (Some 8) =
  (if fst (crypto_ae_unlock Toy.externals Toy.key Toy.nonce
             (skipn (Z.to_nat 8) Toy.envelope)) =? 0
   then Return [LString (snd (crypto_ae_unlock Toy.externals Toy.key
                                Toy.nonce
                                (skipn (Z.to_nat 8) Toy.envelope)))]
   else Return [LNil; lua_literal "unlock error"]) /\
  (forall s,
      ln_ae_unlock Toy.externals Toy.key Toy.nonce Toy.envelope (Some 8)
      = Return [LString s] ->
      strlen s = strlen Toy.envelope - 8 - 16).
Proof.
  apply (ln_ae_unlock_in_range Toy.externals Toy.key Toy.nonce Toy.envelope
           8 ToyFacts.unlock_writes eq_refl eq_refl);
    try (vm_compute; discriminate).
  split; vm_compute; discriminate.
Defined.

Lemma ln_ae_unlock_shift_witness :
  ln_ae_unlock Toy.externals Toy.key Toy.nonce
    (Toy.header ++ Toy.empty_box) (Some (strlen Toy.header + 0))
  = ln_ae_unlock Toy.externals Toy.key Toy.nonce Toy.empty_box (Some 0).
Proof.
  apply (ln_ae_unlock_shift Toy.externals Toy.key Toy.nonce Toy.header
           Toy.empty_box 0 ToyFacts.unlock_writes);
    vm_compute; discriminate.
Defined.

Lemma ln_ae_lock_prefix_app_witness :
  exists env,
    ln_ae_lock Toy.externals Toy.key Toy.nonce Toy.hello
      (Some Toy.other_header) = Return [LString env] /\
    ln_ae_lock Toy.externals Toy.key Toy.nonce Toy.hello
      (Some (Toy.header ++ Toy.other_header))
    = Return [LString (Toy.header ++ env)].
Proof.
  apply (ln_ae_lock_prefix_app Toy.externals Toy.key Toy.nonce Toy.hello
           Toy.header Toy.other_header ToyFacts.lock_writes);
    try reflexivity.
  vm_compute; discriminate.
Defined.

Lemma prefix_not_authenticated_witness :
  exists env,
    ln_ae_lock Toy.externals Toy.key Toy.nonce Toy.hello (Some Toy.header)
    = Return [LString env] /\
    ln_ae_unlock Toy.externals Toy.key Toy.nonce
      (Toy.zeros 3 ++ skipn (Z.to_nat (strlen Toy.header)) env)
      (Some (strlen (Toy.zeros 3)))
    = Return [LString Toy.hello].
Proof.
  apply (prefix_not_authenticated Toy.externals Toy.key Toy.nonce Toy.hello
           Toy.header (Toy.zeros 3) ToyFacts.lock_writes ToyFacts.roundtrip);
    try reflexivity; vm_compute; discriminate.
Defined.

Lemma ln_x25519_public_key_outcome_witness :
  ln_x25519_public_key Toy.externals (Toy.zeros 31) = Error "bad sk size" /\
  ln_x25519_public_key Toy.externals Toy.key
  = Return [LString (crypto_x25519_public_key Toy.externals Toy.key)] /\
  strlen (crypto_x25519_public_key Toy.externals Toy.key) = 32.
Proof.
  split.
  - apply (proj1 (ln_x25519_public_key_outcome Toy.externals (Toy.zeros 31)
                    toy_public_key_writes)).
    vm_compute; discriminate.
  - apply (proj2 (ln_x25519_public_key_outcome Toy.externals Toy.key
                    toy_public_key_writes)).
    reflexivity.
Defined.

Lemma ln_x25519_keypair_pair_witness :
  exists pk sk g',
    ln_x25519_keypair Toy.externals 7
    = (Return [LString pk; LString sk], g') /\
    randombytes Toy.externals 7 32 = (sk, g') /\
    strlen pk = 32 /\ strlen sk = 32 /\
    ln_x25519_public_key Toy.externals sk = Return [LString pk].
Proof.
  exact (ln_x25519_keypair_pair Toy.externals 7 ToyFacts.random_fills
           toy_public_key_writes).
Defined.

Lemma keypair_keys_accepted_witness :
  exists key,
    ln_lock_key Toy.externals (le_split 32 7)
      (crypto_x25519_public_key Toy.externals (le_split 32 8))
    = Return [LString key] /\ strlen key = 32.
Proof.
  apply (keypair_keys_accepted Toy.externals 7 8
           (crypto_x25519_public_key Toy.externals (le_split 32 7))
           (le_split 32 7)
           (crypto_x25519_public_key Toy.externals (le_split 32 8))
           (le_split 32 8) 8 9
           ToyFacts.random_fills toy_public_key_writes toy_lock_key_writes);
    vm_compute; reflexivity.
Defined.

Lemma ln_randombytes_count_witness :
  ln_randombytes Toy.externals true 5 7
  = (Return [LString (fst (randombytes Toy.externals 7 5))],
     snd (randombytes Toy.externals 7 5))
  /\ strlen (fst (randombytes Toy.externals 7 5)) = 5.
Proof.
  apply (ln_randombytes_count Toy.externals 5 7 ToyFacts.random_fills).
  split; vm_compute; discriminate.
Defined.

Lemma ln_randombytes_null_witness :
  fst (ln_randombytes Toy.externals false (-1) 7) = Undefined /\
  fst (ln_randombytes Toy.externals false 0 7) = Return [LString []].
Proof.
  split.
  - apply (proj1 (ln_randombytes_null Toy.externals (-1) 7
                    ToyFacts.random_fills)).
    vm_compute; discriminate.
  - apply (proj2 (ln_randombytes_null Toy.externals 0 7
                    ToyFacts.random_fills)).
    reflexivity.
Defined.

Lemma drawn_key_and_nonce_roundtrip_witness :
  exists k n g1 g2 env,
    ln_randombytes Toy.externals true 32 7 = (Return [LString k], g1) /\
    ln_randombytes Toy.externals true 24 g1 = (Return [LString n], g2) /\
    ln_ae_lock Toy.externals k n Toy.hello None = Return [LString env] /\
    ln_ae_unlock Toy.externals k n env None = Return [LString Toy.hello].
Proof.
  apply (drawn_key_and_nonce_roundtrip Toy.externals 7 Toy.hello
           ToyFacts.random_fills ToyFacts.lock_writes ToyFacts.roundtrip).
  vm_compute; discriminate.
Defined.

Lemma key_exchange_session_witness :
  exists pkA skA gA' pkB skB gB' key env,
    ln_x25519_keypair Toy.externals 7
    = (Return [LString pkA; LString skA], gA') /\
    ln_x25519_keypair Toy.externals 8
    = (Return [LString pkB; LString skB], gB') /\
    ln_lock_key Toy.externals skA pkB = Return [LString key] /\
    ln_lock_key Toy.externals skB pkA = Return [LString key] /\
    ln_ae_lock Toy.externals key Toy.nonce Toy.hello None
    = Return [LString env] /\
    ln_ae_unlock Toy.externals key Toy.nonce env None
    = Return [LString Toy.hello].
Proof.
  apply (key_exchange_session Toy.externals 7 8 Toy.nonce Toy.hello
           ToyFacts.random_fills toy_public_key_writes toy_lock_key_writes
           toy_lock_key_symmetric ToyFacts.lock_writes ToyFacts.roundtrip);
    [reflexivity | vm_compute; discriminate].
Defined.

Lemma ln_ae_unlock_offset_beyond_int_max_witness :
  ln_ae_unlock Toy.externals Toy.key Toy.nonce Toy.envelope (Some (2 ^ 31))
  = Undefined.
Proof.
  apply (ln_ae_unlock_offset_beyond_int_max Toy.externals Toy.key Toy.nonce
           Toy.envelope (2 ^ 31) eq_refl eq_refl).
  split; [vm_compute; discriminate | reflexivity].
Defined.
